(** * The asynchronous download-job subsystem of [src/index.ts]

    A shallow embedding of the job store, the worker body
    [processDownloadJob], the submission and status handlers and the
    S3 key normalisation, followed by the properties of the
    specification that are stated about them.

    Conventions of the embedding.
    - A validated file identifier is an integer, carried as [Z]; a raw
      JavaScript [number] is an IEEE 754 binary64 value ([spec_float]).
    - Timestamps ([new Date().toISOString()], [Date.now()]) are the
      instant in milliseconds, a [Z]; the ISO rendering is injective on
      instants, so equality of renderings is equality of instants.
    - An [async] function is split at its [await] points and at its timer
      callbacks into atomic transitions of one state machine; the
      scheduler (an [Action] list) picks the interleaving.
    - Answers of the outside world (clock readings, [crypto.randomUUID()],
      [Math.random()], the S3 calls) are arguments of the transition that
      consumes them; the clock is read once per transition. Store and
      queue operations are assumed not to throw.
    - The store keeps, next to its map, the trace of all the writes made
      to it, so that properties of "every write" can be stated. *)

From Stdlib Require Import ZArith Lia String Ascii List Bool.
From Stdlib Require Import Floats.SpecFloat.
From Stdlib Require Import Decimal DecimalString.
From stdpp Require Import gmap strings list.

Local Open Scope Z_scope.

(** ** Job records (lines 90-103) *)

Inductive JobStatus := queued | processing | completed | failed.

#[global] Instance JobStatus_eq_dec : EqDecision JobStatus.
Proof. solve_decision. Defined.

(** The [message] field is one of four templates; the two terminal ones
    embed the elapsed time, kept here as the number of milliseconds. *)
Inductive Message :=
| MsgQueued
| MsgProcessing
| MsgReady (processingTimeMs : Z)
| MsgNotFound (processingTimeMs : Z).

Record JobResult := mkJobResult {
  file_id : Z;
  status : JobStatus;
  progress : Z;
  downloadUrl : option string;
  size : option Z;
  processingTimeMs : option Z;
  message : Message;
  createdAt : Z;
  updatedAt : Z
}.

(** [status === "completed" || status === "failed"] *)
Definition terminal (st : JobStatus) : bool :=
  match st with
  | completed | failed => true
  | queued | processing => false
  end.

(** Position of a status in the order Queued -> Processing -> terminal. *)
Definition rank (st : JobStatus) : Z :=
  match st with
  | queued => 0
  | processing => 1
  | completed | failed => 2
  end.

(** ** Configuration (lines 37-88) *)

Record Env := mkEnv {
  S3_BUCKET_NAME : string;   (* default: the empty string, i.e. mock mode *)
  REDIS_URL : bool           (* whether [redisConnection] is non-null *)
}.

(** [!env.S3_BUCKET_NAME] *)
Definition mockMode (env : Env) : bool :=
  match S3_BUCKET_NAME env with
  | EmptyString => true
  | String _ _ => false
  end.

(** ** JavaScript numbers and [String(n)]

    A [number] is read through its value: [S754_finite s m e] stands for
    (-1)^s * m * 2^e. [Math.abs] and [Math.floor] are exact on binary64,
    so they are computed on that value. *)

Abbreviation number := spec_float.

Definition number_of_Z (z : Z) : number :=
  match z with
  | Z0 => S754_zero false
  | Zpos p => S754_finite false p 0
  | Zneg p => S754_finite true p 0
  end.

Definition Math_abs (x : number) : number := SFabs x.

(** What [Math.floor] can return: NaN, an infinity, or an integer given by
    sign and magnitude ([IInt true 0] is -0). *)
Inductive integral := INaN | IInfinity (neg : bool) | IInt (neg : bool) (n : N).

Definition Math_floor (x : number) : integral :=
  match x with
  | S754_nan => INaN
  | S754_infinity s => IInfinity s
  | S754_zero s => IInt s 0
  | S754_finite s m e =>
      let v := if 0 <=? e then Z.shiftl (Zpos m) e
               else if s then - Z.shiftr (- Zpos m) (- e)
               else Z.shiftr (Zpos m) (- e) in
      IInt s (Z.to_N v)
  end.

(** Decimal digits of a natural number, without sign or leading zeros. *)
Definition decimal (n : N) : string := NilZero.string_of_uint (N.to_uint n).

(** [Number::toString] prints the shortest digit string that reads back as
    the same binary64 value, the closest one among those of that length.
    Below 2^53 every integer is its own binary64 value, and the digits are
    the exact ones. *)
Definition nearest (w : N) : spec_float :=
  binary_normalize 53 1024 (Z.of_N w) 0 false.

Definition same_double (a b : N) : bool := SFeqb (nearest a) (nearest b).

Definition candidate (v : N) (n k : nat) : option N :=
  let scale := (10 ^ N.of_nat (n - k))%N in
  let lo := (v / scale * scale)%N in
  let hi := (lo + scale)%N in
  match same_double lo v, same_double hi v with
  | true, true => Some (if (v - lo <=? hi - v)%N then lo else hi)
  | true, false => Some lo
  | false, true => Some hi
  | false, false => None
  end.

Fixpoint search (v : N) (n k : nat) (fuel : nat) : N :=
  match fuel with
  | O => v
  | S fuel' =>
      match candidate v n k with
      | Some w => w
      | None => search v n (S k) fuel'
      end
  end.

Definition shortest (v : N) : N :=
  if (v <? 2 ^ 53)%N then v
  else search v (String.length (decimal v)) 1 17.

Fixpoint strip0 (rev_digits : list ascii) : list ascii :=
  match rev_digits with
  | "0"%char :: r => strip0 r
  | _ => rev_digits
  end.

(** Exponent notation, used from 10^21 on: [d.ddde+x]. *)
Definition exponential (w : N) : string :=
  let ds := decimal w in
  let e := decimal (N.of_nat (String.length ds - 1)) in
  match rev (strip0 (rev (list_ascii_of_string ds))) with
  | [] => ds
  | [d] => String d ("e+" +:+ e)
  | d :: rest => String d ("." +:+ string_of_list_ascii rest +:+ "e+" +:+ e)
  end.

(** [String(v)] on the values of [Math.floor]. *)
Definition String_ (v : integral) : string :=
  match v with
  | INaN => "NaN"
  | IInfinity s => if s then "-Infinity" else "Infinity"
  | IInt s n =>
      let w := shortest n in
      let body := if (w <? 10 ^ 21)%N then decimal w else exponential w in
      if s && negb (n =? 0)%N then "-" +:+ body else body
  end.

(** ** Key normalisation (lines 365-370) *)

Definition sanitizeS3Key (fileId : number) : string :=
  let sanitizedId := Math_floor (Math_abs fileId) in
  "downloads/" +:+ String_ sanitizedId +:+ ".zip".

(** [n] is the integer part of the magnitude of a finite [x]:
    n <= |x| < n + 1. *)
Definition floor_abs_is (x : number) (n : N) : Prop :=
  match x with
  | S754_zero _ => n = 0%N
  | S754_finite _ m e =>
      if 0 <=? e then Z.of_N n = Zpos m * 2 ^ e
      else Z.of_N n * 2 ^ (- e) <= Zpos m < (Z.of_N n + 1) * 2 ^ (- e)
  | S754_infinity _ | S754_nan => False
  end.

(** Occurrences of a character, and of the sequence [..], in a key. *)
Fixpoint count_char (c : ascii) (s : string) : nat :=
  match s with
  | EmptyString => 0
  | String c' s' => (if Ascii.eqb c c' then 1 else 0) + count_char c s'
  end.

Definition starts_with_dot (s : string) : bool :=
  match s with
  | String c _ => Ascii.eqb c "."
  | EmptyString => false
  end.

Fixpoint has_dotdot (s : string) : bool :=
  match s with
  | EmptyString => false
  | String c s' => (Ascii.eqb c "." && starts_with_dot s') || has_dotdot s'
  end.

Definition is_digit (c : ascii) : bool :=
  (48 <=? nat_of_ascii c)%nat && (nat_of_ascii c <=? 57)%nat.

Fixpoint digits_only (s : string) : bool :=
  match s with
  | EmptyString => true
  | String c s' => is_digit c && digits_only s'
  end.

(** A key body that brings no separator, and no [..] when it stands
    between a dot-free prefix and the extension. *)
Definition key_ok (body : string) : Prop :=
  count_char "/" body = 0%nat
  ∧ ∀ pre, count_char "." pre = 0%nat →
           has_dotdot (pre +:+ body +:+ ".zip") = false.

(** ** Request validation (lines 256-264)

    [z.number().int().min(10000).max(100000000)] on one element, and
    [.array(..).min(1).max(1000)] on the batch. A value that passes is an
    integer and is carried as [Z] from then on. *)

Definition integer_of (x : number) : option Z :=
  match x with
  | S754_zero _ => Some 0
  | S754_finite s m e =>
      if 0 <=? e then Some (cond_Zopp s (Z.shiftl (Zpos m) e))
      else if Z.land (Zpos m) (Z.ones (- e)) =? 0
           then Some (cond_Zopp s (Z.shiftr (Zpos m) (- e)))
           else None
  | S754_infinity _ | S754_nan => None
  end.

Definition validFileId (x : number) : option Z :=
  match integer_of x with
  | Some z => if (10000 <=? z) && (z <=? 100000000) then Some z else None
  | None => None
  end.

Definition DownloadInitiateRequestSchema (file_ids : list number)
  : option (list Z) :=
  if (1 <=? length file_ids)%nat && (length file_ids <=? 1000)%nat
  then mapM validFileId file_ids
  else None.

(** An element that the schema accepts: an integer within the bounds. *)
Definition in_range (x : number) : Prop :=
  ∃ z, integer_of x = Some z ∧ 10000 <= z <= 100000000.

(** ** Availability prober and URL issuer (lines 391-451) *)

Record S3Result := mkS3Result {
  available : bool;
  s3Key : option string;
  s3size : option Z
}.

(** [head] is the outcome of the [HeadObjectCommand]: [None] when the call
    throws, [Some cl] with [cl = response.ContentLength ?? null] otherwise.
    [rnd] is [Math.floor(Math.random() * 10000000)]. *)
Definition checkS3Availability (env : Env) (fileId : Z) (rnd : Z)
    (head : option (option Z)) : S3Result :=
  let key := sanitizeS3Key (number_of_Z fileId) in
  if mockMode env then
    let avail := Z.rem fileId 7 =? 0 in
    mkS3Result avail (if avail then Some key else None)
               (if avail then Some (rnd + 1000) else None)
  else
    match head with
    | Some contentLength => mkS3Result true (Some key) contentLength
    | None => mkS3Result false None None
    end.

(** [sign] is the outcome of [getSignedUrl]: [None] when it throws;
    [token] is [crypto.randomUUID()]. *)
Definition generatePresignedUrl (env : Env) (key : string) (token : string)
    (sign : option string) : option string :=
  if mockMode env then
    Some ("https://storage.example.com/" +:+ key +:+ "?token=" +:+ token)
  else sign.

(** Truthiness of a [string | null]. *)
Definition truthy (k : option string) : bool :=
  match k with
  | Some (String _ _) => true
  | Some EmptyString | None => false
  end.

(** ** The system state

    [jobs] is the job store: the map [inMemoryJobs], or the [job:<id>] keys
    of Redis. [queue] holds the waiting BullMQ items. [execs] holds the
    executions of [processDownloadJob] in the order they were started.
    [writes] is the trace of the [setJobStatus] calls, newest first. *)

Inductive Phase :=
| Sleeping     (* in [await sleep(delayMs)], the interval timer armed *)
| Woken        (* past [clearInterval], before the terminal write *)
| Finished.

Record Exec := mkExec {
  e_jobId : string;
  e_fileId : Z;
  e_startTime : Z;
  e_progress : Z;                       (* the closure variable [progress] *)
  e_phase : Phase;
  e_inflight : list (option JobResult)  (* tick reads not yet resumed *)
}.

Record Sys := mkSys {
  jobs : gmap string JobResult;
  queue : list (string * Z);
  execs : list Exec;
  writes : list (string * JobResult)
}.

Definition init : Sys := mkSys ∅ [] [] [].

(** Lines 116-144. *)
Definition getJobStatus (jobId : string) (s : Sys) : option JobResult :=
  jobs s !! jobId.

Definition setJobStatus (jobId : string) (r : JobResult) (s : Sys) : Sys :=
  mkSys (<[jobId := r]> (jobs s)) (queue s) (execs s) ((jobId, r) :: writes s).

Definition set_exec (i : nat) (e : Exec) (s : Sys) : Sys :=
  mkSys (jobs s) (queue s) (<[i := e]> (execs s)) (writes s).

(** ** The worker body [processDownloadJob] (lines 454-545)

    The body is cut at its [await]s into: the start (the transition write
    and the arming of the interval timer), the timer callback up to its
    [await getJobStatus], the rest of the callback, the expiry of the
    sleep with [clearInterval], and the probe with the terminal write. *)

(** Lines 458-471 and 483-485. *)
Definition processDownloadJob_start (jobId : string) (fileId : Z) (now : Z)
    (s : Sys) : Sys :=
  let s1 := setJobStatus jobId
    {| file_id := fileId; status := processing; progress := 0;
       downloadUrl := None; size := None; processingTimeMs := None;
       message := MsgProcessing; createdAt := now; updatedAt := now |} s in
  mkSys (jobs s1) (queue s1)
        (execs s1 ++ [mkExec jobId fileId now 0 Sleeping []]) (writes s1).

(** Lines 485-488: the callback bumps [progress] and issues the read. *)
Definition tickFire (i : nat) (s : Sys) : Sys :=
  match execs s !! i with
  | Some e =>
      match e_phase e with
      | Sleeping =>
          set_exec i
            (mkExec (e_jobId e) (e_fileId e) (e_startTime e)
                    (Z.min (e_progress e + 10) 90) Sleeping
                    (e_inflight e ++ [getJobStatus (e_jobId e) s])) s
      | Woken | Finished => s
      end
  | None => s
  end.

(** Lines 489-495: the guard on the record that was read, and the write of
    that record with the current value of [progress]. *)
Definition tickWrite (jobId : string) (progress_now : Z) (now : Z)
    (currentStatus : option JobResult) (s : Sys) : Sys :=
  match currentStatus with
  | Some cur =>
      match status cur with
      | processing =>
          setJobStatus jobId
            {| file_id := file_id cur; status := status cur;
               progress := progress_now;
               downloadUrl := downloadUrl cur; size := size cur;
               processingTimeMs := processingTimeMs cur;
               message := message cur; createdAt := createdAt cur;
               updatedAt := now |} s
      | queued | completed | failed => s
      end
  | None => s
  end.

Definition tickResume (i : nat) (now : Z) (s : Sys) : Sys :=
  match execs s !! i with
  | Some e =>
      match e_inflight e with
      | currentStatus :: rest =>
          tickWrite (e_jobId e) (e_progress e) now currentStatus
            (set_exec i
               (mkExec (e_jobId e) (e_fileId e) (e_startTime e)
                       (e_progress e) (e_phase e) rest) s)
      | [] => s
      end
  | None => s
  end.

(** Lines 500-501. *)
Definition wake (i : nat) (s : Sys) : Sys :=
  match execs s !! i with
  | Some e =>
      match e_phase e with
      | Sleeping =>
          set_exec i
            (mkExec (e_jobId e) (e_fileId e) (e_startTime e)
                    (e_progress e) Woken (e_inflight e)) s
      | Woken | Finished => s
      end
  | None => s
  end.

(** Lines 504-545: the record of the terminal write. [stored] is the
    answer of the [getJobStatus] call that supplies [createdAt]. *)
Definition terminalRecord (env : Env) (fileId : Z) (startTime : Z)
    (now rnd : Z) (head : option (option Z)) (token : string)
    (sign : option string) (stored : option JobResult) : JobResult :=
  let s3Result := checkS3Availability env fileId rnd head in
  let elapsed := now - startTime in
  let created := match stored with
                 | Some r => createdAt r
                 | None => now
                 end in
  if available s3Result && truthy (s3Key s3Result) then
    {| file_id := fileId; status := completed; progress := 100;
       downloadUrl := generatePresignedUrl env
                        (default EmptyString (s3Key s3Result)) token sign;
       size := s3size s3Result; processingTimeMs := Some elapsed;
       message := MsgReady elapsed; createdAt := created;
       updatedAt := now |}
  else
    {| file_id := fileId; status := failed; progress := 100;
       downloadUrl := None; size := None; processingTimeMs := Some elapsed;
       message := MsgNotFound elapsed; createdAt := created;
       updatedAt := now |}.

(** The terminal write. The reads of the ticks were issued before
    [clearInterval], on the connection on which the read of [createdAt] is
    issued after it, and are answered and resumed first: the step waits
    for them. *)
Definition finish (env : Env) (i : nat) (now rnd : Z)
    (head : option (option Z)) (token : string) (sign : option string)
    (s : Sys) : Sys :=
  match execs s !! i with
  | Some e =>
      match e_phase e, e_inflight e with
      | Woken, [] =>
          setJobStatus (e_jobId e)
            (terminalRecord env (e_fileId e) (e_startTime e) now rnd head
               token sign (getJobStatus (e_jobId e) s))
            (set_exec i
               (mkExec (e_jobId e) (e_fileId e) (e_startTime e)
                       (e_progress e) Finished []) s)
      | _, _ => s
      end
  | None => s
  end.

(** ** The two routes (lines 741-788 and 855-878) *)

Inductive Response :=
| Initiated (jobId : string) (st : JobStatus) (totalFileIds : nat)   (* 200 *)
| StatusOf (jobId : string) (r : JobResult)      (* 200, { jobId, ...r } *)
| BadRequest                                     (* 400, from the schema *)
| NotFound (jobId : string).                     (* 404 *)

Definition initialRecord (fileId : Z) (now : Z) : JobResult :=
  {| file_id := fileId; status := queued; progress := 0;
     downloadUrl := None; size := None; processingTimeMs := None;
     message := MsgQueued; createdAt := now; updatedAt := now |}.

Definition enqueue (item : string * Z) (s : Sys) : Sys :=
  mkSys (jobs s) (queue s ++ [item]) (execs s) (writes s).

(** The handler proper, on a validated batch [fileId :: rest]. Without
    Redis the worker body is called and not awaited: it runs up to its
    first [await] before the handler goes on, reading the clock anew
    ([now']). *)
Definition downloadInitiateHandler (env : Env) (fileId : Z) (rest : list Z)
    (jobId : string) (now now' : Z) (s : Sys) : Response * Sys :=
  let s1 := setJobStatus jobId (initialRecord fileId now) s in
  let s2 := if REDIS_URL env then enqueue (jobId, fileId) s1
            else processDownloadJob_start jobId fileId now' s1 in
  (Initiated jobId queued (length (fileId :: rest)), s2).

Definition downloadInitiate (env : Env) (file_ids : list number)
    (jobId : string) (now now' : Z) (s : Sys) : Response * Sys :=
  match DownloadInitiateRequestSchema file_ids with
  | Some (fileId :: rest) =>
      downloadInitiateHandler env fileId rest jobId now now' s
  | Some [] | None => (BadRequest, s)
  end.

(** The status handler, on a [jobId] that passed the route's parameter
    schema. *)
Definition jobStatus (jobId : string) (s : Sys) : Response * Sys :=
  match getJobStatus jobId s with
  | None => (NotFound jobId, s)
  | Some r => (StatusOf jobId r, s)
  end.

(** ** The queue worker and the store's expiry *)

(** Lines 549-560: a worker takes the oldest waiting item. *)
Definition deliver (env : Env) (now : Z) (s : Sys) : Sys :=
  if REDIS_URL env then
    match queue s with
    | (jobId, fileId) :: q =>
        processDownloadJob_start jobId fileId now
          (mkSys (jobs s) q (execs s) (writes s))
    | [] => s
    end
  else s.

(** At-least-once delivery: the item of execution [i] is handed to a
    worker once more. *)
Definition redeliver (env : Env) (i : nat) (now : Z) (s : Sys) : Sys :=
  if REDIS_URL env then
    match execs s !! i with
    | Some e => processDownloadJob_start (e_jobId e) (e_fileId e) now s
    | None => s
    end
  else s.

(** Line 135: Redis drops a key 24 hours after its last write. *)
Definition expire (env : Env) (jobId : string) (s : Sys) : Sys :=
  if REDIS_URL env then
    mkSys (delete jobId (jobs s)) (queue s) (execs s) (writes s)
  else s.

(** ** Schedules *)

Inductive Action :=
| Submit (file_ids : list number) (uuid : string) (now now' : Z)
| Poll (jobId : string)
| Deliver (now : Z)
| Redeliver (i : nat) (now : Z)
| TickFire (i : nat)
| TickResume (i : nat) (now : Z)
| Wake (i : nat)
| Finish (i : nat) (now rnd : Z) (head : option (option Z))
         (token : string) (sign : option string)
| Expire (jobId : string).

Definition step (env : Env) (a : Action) (s : Sys) : Sys :=
  match a with
  | Submit file_ids uuid now now' =>
      snd (downloadInitiate env file_ids uuid now now' s)
  | Poll jobId => snd (jobStatus jobId s)
  | Deliver now => deliver env now s
  | Redeliver i now => redeliver env i now s
  | TickFire i => tickFire i s
  | TickResume i now => tickResume i now s
  | Wake i => wake i s
  | Finish i now rnd head token sign =>
      finish env i now rnd head token sign s
  | Expire jobId => expire env jobId s
  end.

Definition run (env : Env) (sched : list Action) (s : Sys) : Sys :=
  foldl (fun s a => step env a s) s sched.

(** [crypto.randomUUID()] returns an identifier that was never used. *)
Definition fresh (uuid : string) (s : Sys) : Prop :=
  uuid ∉ (writes s).*1.

Definition admissible (redelivery : bool) (a : Action) (s : Sys) : Prop :=
  match a with
  | Submit _ uuid _ _ => fresh uuid s
  | Redeliver _ _ => redelivery = true
  | _ => True
  end.

(** Admissibility of every action of a schedule, in the state it is
    taken in. *)
Fixpoint admissible_all (env : Env) (redelivery : bool) (sched : list Action)
    (s : Sys) : Prop :=
  match sched with
  | [] => True
  | a :: rest =>
      admissible redelivery a s
      ∧ admissible_all env redelivery rest (step env a s)
  end.

Inductive reachable (env : Env) (redelivery : bool) : Sys → Prop :=
| reachable_init : reachable env redelivery init
| reachable_step s a :
    reachable env redelivery s →
    admissible redelivery a s →
    reachable env redelivery (step env a s).

(** ** Properties of records and of write traces *)

Definition url_iff_completed (r : JobResult) : Prop :=
  downloadUrl r ≠ None ↔ status r = completed.

(** What holds of the URL of every record: a record that is not completed
    has none, and in mock mode a completed record has one. *)
Definition url_ok (env : Env) (r : JobResult) : Prop :=
  (status r ≠ completed → downloadUrl r = None)
  ∧ (mockMode env = true → status r = completed → downloadUrl r ≠ None).

Record url_inv (env : Env) (s : Sys) : Prop := mkUrlInv {
  url_writes : ∀ j r, (j, r) ∈ writes s → url_ok env r;
  url_jobs : ∀ j r, jobs s !! j = Some r → url_ok env r;
  url_inflight : ∀ e r, e ∈ execs s → Some r ∈ e_inflight e → url_ok env r
}.

(** Every stored record was written. *)
Definition stored_known (s : Sys) : Prop :=
  ∀ j r, jobs s !! j = Some r → j ∈ (writes s).*1.

(** A trace, newest write first, in which no write of a job stores a lower
    status or a lower progress than an earlier write of the same job. *)
Fixpoint status_never_regresses (tr : list (string * JobResult)) : Prop :=
  match tr with
  | [] => True
  | (j, r) :: older =>
      (∀ r', (j, r') ∈ older → rank (status r') <= rank (status r))
      ∧ status_never_regresses older
  end.

Fixpoint progress_never_decreases (tr : list (string * JobResult)) : Prop :=
  match tr with
  | [] => True
  | (j, r) :: older =>
      (∀ r', (j, r') ∈ older → progress r' <= progress r)
      ∧ progress_never_decreases older
  end.

(** The writes of one job, oldest first. *)
Definition history (jobId : string) (s : Sys) : list JobResult :=
  reverse (omap (fun w : string * JobResult =>
                   if decide (w.1 = jobId) then Some w.2 else None)
                (writes s)).

(** ** One job from submission to its terminal write

    The schedule of a single submission [x] that is then served: with
    Redis the worker first takes the items that were waiting before it;
    every tick of [ticks] fires and resumes at the given instant; the sleep
    expires; the terminal write follows. *)

Definition servedAt (env : Env) (s : Sys) : nat :=
  if REDIS_URL env then (length (execs s) + length (queue s))%nat
  else length (execs s).

Definition lifecycle (env : Env) (s : Sys) (x : number) (uuid : string)
    (now now' started : Z) (ticks : list Z) (ended rnd : Z)
    (head : option (option Z)) (token : string) (sign : option string)
  : list Action :=
  let i := servedAt env s in
  Submit [x] uuid now now'
  :: (if REDIS_URL env
      then replicate (S (length (queue s))) (Deliver started) else [])
  ++ flat_map (fun t => [TickFire i; TickResume i t]) ticks
  ++ [Wake i; Finish i ended rnd head token sign].

(** Execution [i] serves the job, is asleep, and has no tick read pending. *)
Definition asleep (i : nat) (jobId : string) (fileId start : Z) (s : Sys)
  : Prop :=
  ∃ p, execs s !! i = Some (mkExec jobId fileId start p Sleeping []).

(** ** The invariant of runs in which every item is delivered once *)

Definition active (e : Exec) : Prop := e_phase e ≠ Finished.

Record delivered_once (s : Sys) : Prop := mkDeliveredOnce {
  (* a waiting item has been written once, as queued *)
  inv_queue_rank : ∀ j f r, (j, f) ∈ queue s → (j, r) ∈ writes s →
                     status r = queued ∧ progress r = 0;
  inv_queue_nodup : NoDup (queue s).*1;
  inv_queue_known : ∀ j f, (j, f) ∈ queue s → ∃ r, (j, r) ∈ writes s;
  inv_exec_known : ∀ e, e ∈ execs s → ∃ r, (e_jobId e, r) ∈ writes s;
  (* a waiting item is not being served *)
  inv_queue_exec : ∀ j f e, (j, f) ∈ queue s → e ∈ execs s → e_jobId e ≠ j;
  (* a job has at most one unfinished execution *)
  inv_exec_unique : ∀ i i' e e', execs s !! i = Some e → execs s !! i' = Some e' →
                      active e → active e' → e_jobId e = e_jobId e' → i = i';
  (* what an unfinished execution has written so far *)
  inv_exec_bound : ∀ e r, e ∈ execs s → active e → (e_jobId e, r) ∈ writes s →
                     rank (status r) <= 1 ∧ progress r <= e_progress e;
  inv_exec_progress : ∀ e, e ∈ execs s → 0 <= e_progress e <= 90;
  (* a finished execution has no tick read pending *)
  inv_exec_finished : ∀ e, e ∈ execs s → e_phase e = Finished → e_inflight e = []
}.



Definition good (s : Sys) : Prop :=
  delivered_once s
  ∧ status_never_regresses (writes s)
  ∧ progress_never_decreases (writes s).

(** ** The progress counter *)



(** ** A tick between its read and its resumption *)




(** ** Configurations and states used in the examples *)

Definition mock_memory : Env := mkEnv EmptyString false.
Definition mock_redis : Env := mkEnv EmptyString true.
Definition bucket_redis : Env := mkEnv "files" true.

(** A job in mock mode without Redis, after two ticks and its end. *)
Definition served_state : Sys :=
  run mock_memory
    [Submit [number_of_Z 70000] "job-1" 1000 1001; TickFire 0;
     TickResume 0 2000; TickFire 0; TickResume 0 3000; Wake 0;
     Finish 0 9000 5 None "t" None]
    init.

Definition served_record : JobResult :=
  {| file_id := 70000; status := completed; progress := 100;
     downloadUrl :=
       Some "https://storage.example.com/downloads/70000.zip?token=t";
     size := Some 1005; processingTimeMs := Some 7999;
     message := MsgReady 7999; createdAt := 1001; updatedAt := 9000 |}.

(** The instants 1, 2, ..., n. *)
Definition seq_Z_ticks (n : nat) : list Z := map Z.of_nat (seq 1 n).

(** The number 10^21, as 7629394531250000 * 2^17. *)
Definition ten_to_21 : number := S754_finite false 7629394531250000 17.

(** A job is served to its end and its item is then delivered again. *)
Definition redelivered_state : Sys :=
  run mock_redis
    [Submit [number_of_Z 70001] "job-1" 1000 1000; Deliver 2000; Wake 0;
     Finish 0 9000 0 None "t" None; Redeliver 0 10000]
    init.

(** A job is submitted at instant 1000 and taken by the worker at 5000. *)
Definition taken_late_state : Sys :=
  run mock_redis
    [Submit [number_of_Z 70000] "job-1" 1000 1000; Deliver 5000] init.

(** With a bucket configured, the object exists and the signing call
    throws. *)
Definition unsigned_state : Sys :=
  run bucket_redis
    [Submit [number_of_Z 70000] "job-1" 1000 1000; Deliver 2000; Wake 0;
     Finish 0 9000 0 (Some (Some 512)) "t" None]
    init.

(** A job is delivered twice; the second execution finishes first; the
    first one then ticks on the terminal record. *)
Definition overtaken_state : Sys :=
  run mock_redis
    [Submit [number_of_Z 70001] "job-1" 1000 1000; Deliver 2000;
     Redeliver 0 3000; Wake 1; Finish 1 9000 0 None "t" None]
    init.


(** Two ticks of one execution have fired and neither has resumed. *)
Definition ticking_state : Sys :=
  run mock_redis
    [Submit [number_of_Z 70000] "job-1" 1000 1000; Deliver 2000;
     TickFire 0; TickFire 0]
    init.

(** The two ticks resume, one after the other. *)
Definition overlapping_ticks_state : Sys :=
  run mock_redis [TickResume 0 4100; TickResume 0 4200] ticking_state.



(* ================================================================== *)
(** * Further definitions: the rest of the server and its callers *)
(* ================================================================== *)

(** ** The transitions, case by case

    [transition env s a s'] lists what an action can do to a state, one
    constructor per branch of [step]; [tr_skip] stands for the branches
    that leave the state as it is. *)

Inductive transition (env : Env) (s : Sys) : Action → Sys → Prop :=
| tr_skip a : transition env s a s
| tr_submit_queue ids uuid now now' f rest :
    DownloadInitiateRequestSchema ids = Some (f :: rest) →
    REDIS_URL env = true →
    transition env s (Submit ids uuid now now')
      (enqueue (uuid, f) (setJobStatus uuid (initialRecord f now) s))
| tr_submit_spawn ids uuid now now' f rest :
    DownloadInitiateRequestSchema ids = Some (f :: rest) →
    REDIS_URL env = false →
    transition env s (Submit ids uuid now now')
      (processDownloadJob_start uuid f now'
         (setJobStatus uuid (initialRecord f now) s))
| tr_deliver now j f q :
    REDIS_URL env = true → queue s = (j, f) :: q →
    transition env s (Deliver now)
      (processDownloadJob_start j f now
         (mkSys (jobs s) q (execs s) (writes s)))
| tr_redeliver i now e :
    REDIS_URL env = true → execs s !! i = Some e →
    transition env s (Redeliver i now)
      (processDownloadJob_start (e_jobId e) (e_fileId e) now s)
| tr_tick_fire i e :
    execs s !! i = Some e → e_phase e = Sleeping →
    transition env s (TickFire i)
      (set_exec i
         (mkExec (e_jobId e) (e_fileId e) (e_startTime e)
                 (Z.min (e_progress e + 10) 90) Sleeping
                 (e_inflight e ++ [getJobStatus (e_jobId e) s])) s)
| tr_tick_drop i now e cur rest :
    execs s !! i = Some e → e_inflight e = cur :: rest →
    (∀ c, cur = Some c → status c ≠ processing) →
    transition env s (TickResume i now)
      (set_exec i
         (mkExec (e_jobId e) (e_fileId e) (e_startTime e)
                 (e_progress e) (e_phase e) rest) s)
| tr_tick_write i now e c rest :
    execs s !! i = Some e → e_inflight e = Some c :: rest →
    status c = processing →
    transition env s (TickResume i now)
      (setJobStatus (e_jobId e)
         (mkJobResult (file_id c) processing (e_progress e) (downloadUrl c)
            (size c) (processingTimeMs c) (message c) (createdAt c) now)
         (set_exec i
            (mkExec (e_jobId e) (e_fileId e) (e_startTime e)
                    (e_progress e) (e_phase e) rest) s))
| tr_wake i e :
    execs s !! i = Some e → e_phase e = Sleeping →
    transition env s (Wake i)
      (set_exec i
         (mkExec (e_jobId e) (e_fileId e) (e_startTime e)
                 (e_progress e) Woken (e_inflight e)) s)
| tr_finish i now rnd head token sign e :
    execs s !! i = Some e → e_phase e = Woken → e_inflight e = [] →
    transition env s (Finish i now rnd head token sign)
      (setJobStatus (e_jobId e)
         (terminalRecord env (e_fileId e) (e_startTime e) now rnd head
            token sign (getJobStatus (e_jobId e) s))
         (set_exec i
            (mkExec (e_jobId e) (e_fileId e) (e_startTime e)
                    (e_progress e) Finished []) s))
| tr_expire j :
    REDIS_URL env = true →
    transition env s (Expire j)
      (mkSys (delete j (jobs s)) (queue s) (execs s) (writes s)).

(** ** The shape of a record

    What the fields of a record are, status by status. *)
Definition well_formed (r : JobResult) : Prop :=
  match status r with
  | queued =>
      progress r = 0 ∧ downloadUrl r = None ∧ size r = None
      ∧ processingTimeMs r = None ∧ message r = MsgQueued
  | processing =>
      0 <= progress r <= 90 ∧ downloadUrl r = None ∧ size r = None
      ∧ processingTimeMs r = None ∧ message r = MsgProcessing
  | completed =>
      progress r = 100
      ∧ ∃ ms, processingTimeMs r = Some ms ∧ message r = MsgReady ms
  | failed =>
      progress r = 100 ∧ downloadUrl r = None ∧ size r = None
      ∧ ∃ ms, processingTimeMs r = Some ms ∧ message r = MsgNotFound ms
  end.

Record shape_inv (s : Sys) : Prop := mkShapeInv {
  shape_writes : ∀ j r, (j, r) ∈ writes s → well_formed r;
  shape_jobs : ∀ j r, jobs s !! j = Some r → well_formed r;
  shape_inflight : ∀ e r, e ∈ execs s → Some r ∈ e_inflight e →
                     well_formed r;
  shape_counter : ∀ e, e ∈ execs s → 0 <= e_progress e <= 90
}.

(** ** The store and the trace *)

(** The newest write of a job in a trace. *)
Fixpoint last_write (jobId : string) (tr : list (string * JobResult))
  : option JobResult :=
  match tr with
  | [] => None
  | (j, r) :: older =>
      if decide (j = jobId) then Some r else last_write jobId older
  end.

(** The store holds, for each job it has a record of, the newest write
    of that job; without Redis it holds it for every job. *)
Definition store_coherent (env : Env) (s : Sys) : Prop :=
  (∀ j r, jobs s !! j = Some r → last_write j (writes s) = Some r)
  ∧ (REDIS_URL env = false → ∀ j, jobs s !! j = last_write j (writes s)).

(** The job whose record an action can write or remove. *)
Definition target (a : Action) (s : Sys) : option string :=
  match a with
  | Submit _ uuid _ _ => Some uuid
  | Deliver _ => fst <$> head (queue s)
  | Redeliver i _ | TickResume i _ | Finish i _ _ _ _ _ =>
      e_jobId <$> execs s !! i
  | Expire j => Some j
  | Poll _ | TickFire _ | Wake _ => None
  end.

(** ** The file identifier of a job *)

Record file_inv (s : Sys) : Prop := mkFileInv {
  file_writes : ∀ j r r', (j, r) ∈ writes s → (j, r') ∈ writes s →
                  file_id r = file_id r';
  file_queue : ∀ j f r, (j, f) ∈ queue s → (j, r) ∈ writes s →
                 file_id r = f;
  file_exec : ∀ e r, e ∈ execs s → (e_jobId e, r) ∈ writes s →
                file_id r = e_fileId e;
  file_inflight : ∀ e r, e ∈ execs s → Some r ∈ e_inflight e →
                    (e_jobId e, r) ∈ writes s;
  file_jobs : ∀ j r, jobs s !! j = Some r → (j, r) ∈ writes s;
  file_queue_known : ∀ j f, (j, f) ∈ queue s → j ∈ (writes s).*1;
  file_exec_known : ∀ e, e ∈ execs s → e_jobId e ∈ (writes s).*1
}.

(** ** The terminal write is the last one *)

(** A trace, newest first, in which every write of a job follows only
    non-terminal writes of that job. *)
Fixpoint terminal_is_final (tr : list (string * JobResult)) : Prop :=
  match tr with
  | [] => True
  | (j, r) :: older =>
      (∀ r', (j, r') ∈ older → terminal (status r') = false)
      ∧ terminal_is_final older
  end.

(** ** More states used in the examples *)

(** The first record of the job of [served_state]. *)
Definition submitted_record : JobResult := initialRecord 70000 1000.

(** ** The synchronous routes

    [checkS3Health] (lines 373-389), the error handler (lines 223-237),
    the request-id middleware (lines 158-163) and the health, check and
    start routes (lines 632-645, 790-809, 926-975). *)

(** What a [catch] clause receives: an [Error] with its [name], or any
    other thrown value. *)
Inductive Thrown := ErrorNamed (name : string) | NotAnError.

(** Outcome of a [HeadObjectCommand], with the thrown value kept. *)
Inductive HeadOutcome :=
| HeadSent (contentLength : option Z)
| HeadThrew (err : Thrown).

Definition head_of (h : HeadOutcome) : option (option Z) :=
  match h with
  | HeadSent contentLength => Some contentLength
  | HeadThrew _ => None
  end.

Definition checkS3Health (env : Env) (h : HeadOutcome) : bool :=
  if mockMode env then true
  else match h with
       | HeadSent _ => true
       | HeadThrew (ErrorNamed name) => String.eqb name "NotFound"
       | HeadThrew NotAnError => false
       end.

Record HealthResponse := mkHealthResponse {
  health_status : string;
  health_storage : string;
  health_code : Z
}.

Definition healthRoute (env : Env) (h : HeadOutcome) : HealthResponse :=
  let storageHealthy := checkS3Health env h in
  {| health_status := if storageHealthy then "healthy" else "unhealthy";
     health_storage := if storageHealthy then "ok" else "error";
     health_code := if storageHealthy then 200 else 503 |}.

Inductive NodeEnv := development | production | test.

Record ErrorResponse := mkErrorResponse {
  error_name : string;
  error_message : string;
  error_requestId : option string;
  error_code : Z
}.

Definition onError (node_env : NodeEnv) (err_message : string)
    (requestId : option string) : ErrorResponse :=
  {| error_name := "Internal Server Error";
     error_message := match node_env with
                      | development => err_message
                      | production | test => "An unexpected error occurred"
                      end;
     error_requestId := requestId;
     error_code := 500 |}.

(** [header] is the request's [x-request-id], [uuid] the value that
    [crypto.randomUUID()] would give. *)
Definition requestId (header : option string) (uuid : string) : string :=
  default uuid header.

(** An integer as the value that [String] prints. *)
Definition integral_of_Z (z : Z) : integral := IInt (z <? 0) (Z.abs_N z).

Record CheckResponse := mkCheckResponse {
  check_file_id : Z;
  check_result : S3Result
}.

(** The check handler on a validated [file_id]: [inl] carries the message
    of the error it throws. *)
Definition downloadCheckHandler (env : Env) (sentry_test : option string)
    (file_id : Z) (rnd : Z) (h : HeadOutcome) : string + CheckResponse :=
  if bool_decide (sentry_test = Some "true") then
    inl ("Sentry test error triggered for file_id="
         +:+ String_ (integral_of_Z file_id)
         +:+ " - This should appear in Sentry!")
  else
    inr (mkCheckResponse file_id
           (checkS3Availability env file_id rnd (head_of h))).

Inductive CheckReply :=
| CheckOk (body : CheckResponse)                 (* 200 *)
| CheckInvalid                                   (* 400 *)
| CheckError (body : ErrorResponse).             (* 500 *)

(** The check route behind the request-id middleware, the body schema
    and the error handler. *)
Definition downloadCheck (node_env : NodeEnv) (env : Env)
    (header : option string) (uuid : string) (sentry_test : option string)
    (file_id : number) (rnd : Z) (h : HeadOutcome) : string * CheckReply :=
  let rid := requestId header uuid in
  match validFileId file_id with
  | None => (rid, CheckInvalid)
  | Some z =>
      match downloadCheckHandler env sentry_test z rnd h with
      | inl msg => (rid, CheckError (onError node_env msg (Some rid)))
      | inr body => (rid, CheckOk body)
      end
  end.

Inductive StartMessage :=
| StartReady (processingTimeMs : Z)
    (* Download ready after <s> seconds *)
| StartNotFound (processingTimeMs : Z).
    (* File not found after <s> seconds of processing *)

Record StartResponse := mkStartResponse {
  start_file_id : Z;
  start_status : JobStatus;
  start_downloadUrl : option string;
  start_size : option Z;
  start_processingTimeMs : Z;
  start_message : StartMessage
}.

(** The start handler on a validated [file_id]; [startTime] and [now] are
    the two readings of the clock, before and after the sleep. *)
Definition downloadStart (env : Env) (file_id : Z) (startTime now rnd : Z)
    (h : HeadOutcome) (token : string) : StartResponse :=
  let s3Result := checkS3Availability env file_id rnd (head_of h) in
  let processingTimeMs := now - startTime in
  if available s3Result then
    {| start_file_id := file_id; start_status := completed;
       start_downloadUrl :=
         Some ("https://storage.example.com/"
               +:+ default EmptyString (s3Key s3Result)
               +:+ "?token=" +:+ token);
       start_size := s3size s3Result;
       start_processingTimeMs := processingTimeMs;
       start_message := StartReady processingTimeMs |}
  else
    {| start_file_id := file_id; start_status := failed;
       start_downloadUrl := None; start_size := None;
       start_processingTimeMs := processingTimeMs;
       start_message := StartNotFound processingTimeMs |}.

(** ** Time stamps

    The readings of the clock that an action makes, in the order in which
    the code makes them. *)
Definition readings (a : Action) : list Z :=
  match a with
  | Submit _ _ now now' => [now; now']
  | Deliver now | Redeliver _ now | TickResume _ now => [now]
  | Finish _ now _ _ _ _ => [now]
  | Poll _ | TickFire _ | Wake _ | Expire _ => []
  end.

(** Readings that never go back, starting from [T]. *)
Fixpoint ordered (T : Z) (l : list Z) : Prop :=
  match l with
  | [] => True
  | t :: l' => T <= t ∧ ordered t l'
  end.

(** A schedule on whose course the clock never goes back. *)
Fixpoint monotone (T : Z) (sched : list Action) : Prop :=
  match sched with
  | [] => True
  | a :: rest =>
      ordered T (readings a) ∧ monotone (List.last (readings a) T) rest
  end.

Definition clock_after (T : Z) (sched : list Action) : Z :=
  foldl (fun T a => List.last (readings a) T) T sched.

Definition stamped (T : Z) (r : JobResult) : Prop :=
  createdAt r <= updatedAt r ∧ updatedAt r <= T
  ∧ ∀ ms, processingTimeMs r = Some ms → 0 <= ms.

(** A trace, newest write first, whose [updatedAt] never goes back. *)
Fixpoint stamps_sorted (tr : list (string * JobResult)) : Prop :=
  match tr with
  | [] => True
  | (_, r) :: older =>
      (∀ j' r', (j', r') ∈ older → updatedAt r' <= updatedAt r)
      ∧ stamps_sorted older
  end.

Record time_inv (T : Z) (s : Sys) : Prop := mkTimeInv {
  time_writes : ∀ j r, (j, r) ∈ writes s → stamped T r;
  time_jobs : ∀ j r, jobs s !! j = Some r → stamped T r;
  time_inflight : ∀ e r, e ∈ execs s → Some r ∈ e_inflight e → stamped T r;
  time_start : ∀ e, e ∈ execs s → e_startTime e <= T;
  time_sorted : stamps_sorted (writes s)
}.

(** The schedule of [served_state]: its clock never goes back. *)
Definition served_schedule : list Action :=
  [Submit [number_of_Z 70000] "job-1" 1000 1001; TickFire 0;
   TickResume 0 2000; TickFire 0; TickResume 0 3000; Wake 0;
   Finish 0 9000 5 None "t" None].

(** ** Strings of the environment and of the headers

    [CORS_ORIGINS] (lines 50-53) and the key of the rate limiter (lines
    192-196). A header value is a string of bytes. *)

(** [s.split(sep)] for a separator of one character: the first piece and
    the pieces after it. *)
Fixpoint split_first (sep : ascii) (s : string) : string * list string :=
  match s with
  | EmptyString => (EmptyString, [])
  | String c s' =>
      let '(h, t) := split_first sep s' in
      if Ascii.eqb c sep then (EmptyString, h :: t) else (String c h, t)
  end.

Definition split (sep : ascii) (s : string) : list string :=
  let '(h, t) := split_first sep s in h :: t.

(** [l.join(sep)]. *)
Fixpoint join (sep : ascii) (l : list string) : string :=
  match l with
  | [] => EmptyString
  | [x] => x
  | x :: rest => x +:+ String sep (join sep rest)
  end.

(** White space and line terminators among the bytes: TAB, LF, VT, FF,
    CR, SP and NBSP. *)
Definition is_space (c : ascii) : bool :=
  let n := nat_of_ascii c in
  ((9 <=? n)%nat && (n <=? 13)%nat) || (n =? 32)%nat || (n =? 160)%nat.

Fixpoint trimStart (s : string) : string :=
  match s with
  | EmptyString => EmptyString
  | String c s' => if is_space c then trimStart s' else s
  end.

Fixpoint trimEnd (s : string) : string :=
  match s with
  | EmptyString => EmptyString
  | String c s' =>
      match trimEnd s' with
      | EmptyString => if is_space c then EmptyString else String c EmptyString
      | String _ _ as t => String c t
      end
  end.

Definition trim (s : string) : string := trimEnd (trimStart s).

(** [forwarded] and [real_ip] are the request's [x-forwarded-for] and
    [x-real-ip]. *)
Definition keyGenerator (forwarded real_ip : option string) : string :=
  default (default "anonymous" real_ip)
          (trim <$> (forwarded ≫= λ v, split "," v !! 0%nat)).

(** The value of [env.CORS_ORIGINS]: the string [*] or a list. *)
Definition CORS_ORIGINS (val : option string) : string + list string :=
  let v := default "*" val in
  if String.eqb v "*" then inl "*" else inr (split "," v).

(** ** Shutdown (lines 994-1039)

    The operations that one signal starts, in the order in which they are
    started. [drained] tells whether the server's [close] ever calls back,
    that is, whether the open connections end; the other flags tell
    whether the promise of an operation is fulfilled. Worker, queue and
    connection exist exactly when Redis is configured (lines 83-86,
    111-114, 548-560). *)
Inductive ShutdownOp :=
| ServerClose | WorkerClose | QueueClose | RedisQuit | OtelShutdown
| S3Destroy.

Definition closeQueue (env : Env) (worker_ok queue_ok : bool)
  : list ShutdownOp :=
  if REDIS_URL env then
    WorkerClose ::
      (if worker_ok then
         QueueClose :: (if queue_ok then [RedisQuit] else [])
       else [])
  else [].

Definition gracefulShutdown (env : Env) (drained worker_ok queue_ok : bool)
  : list ShutdownOp :=
  ServerClose ::
    (if drained then
       closeQueue env worker_ok queue_ok ++ [OtelShutdown; S3Destroy]
     else []).

(** ** The browser client

    The guards of [handleSubmit] and of [initiateDownload], the list of
    jobs of the [DownloadJobs] component with its polling, and the log of
    the [ErrorLog] component. *)

Definition mantissa (x : number) : Z :=
  match x with
  | S754_finite s m _ => cond_Zopp s (Zpos m)
  | S754_zero _ | S754_infinity _ | S754_nan => 0
  end.

Definition exponent (x : number) : Z :=
  match x with
  | S754_finite _ _ e => e
  | S754_zero _ | S754_infinity _ | S754_nan => 0
  end.

(** [x < y], by the values of the two numbers. *)
Definition less_than (x y : number) : bool :=
  match x, y with
  | S754_nan, _ | _, S754_nan => false
  | S754_infinity sx, S754_infinity sy => sx && negb sy
  | S754_infinity sx, _ => sx
  | _, S754_infinity sy => negb sy
  | _, _ =>
      let e := Z.min (exponent x) (exponent y) in
      mantissa x * 2 ^ (exponent x - e) <? mantissa y * 2 ^ (exponent y - e)
  end.

Definition isFinite (x : number) : bool :=
  match x with
  | S754_zero _ | S754_finite _ _ _ => true
  | S754_infinity _ | S754_nan => false
  end.

Definition isNaN (x : number) : bool :=
  match x with
  | S754_nan => true
  | _ => false
  end.

(** The guard of [handleSubmit] on [id = parseInt(fileId)]: [true] when
    the form shows the error and sends nothing. *)
Definition handleSubmit_refuses (id : number) : bool :=
  isNaN id || less_than id (number_of_Z 10000)
  || less_than (number_of_Z 100000000) id.

(** The guard of [initiateDownload]: [true] when it throws before any
    request. *)
Definition initiateDownload_throws (fileId : number) : bool :=
  less_than fileId (number_of_Z 10000)
  || less_than (number_of_Z 100000000) fileId.

(** The number [k + 1/2] for a positive [k]. *)
Definition and_a_half (k : positive) : number :=
  S754_finite false (2 * k + 1) (-1).

Record DownloadJob := mkDownloadJob {
  dj_jobId : string;
  dj_fileId : Z;
  dj_status : JobStatus;
  dj_progress : option Z;
  dj_downloadUrl : option string;
  dj_error : option string;
  dj_message : option Message;
  dj_createdAt : Z;
  dj_updatedAt : option Z
}.

(** An answer of [fetchJobStatus], tagged with the identifier that was
    polled. *)
Record Update := mkUpdate {
  polledJobId : string;
  u_jobId : string;
  u_result : JobResult
}.

Definition is_active (job : DownloadJob) : bool :=
  match dj_status job with
  | queued | processing => true
  | completed | failed => false
  end.

Definition activeJobIds (jobs : list DownloadJob) : list string :=
  map dj_jobId (filter (λ j, is_active j = true) jobs).

(** The predicate of [updates.find]; a failed poll is [None]. *)
Definition matches (job : DownloadJob) (u : option Update) : bool :=
  match u with
  | Some u =>
      bool_decide (polledJobId u = dj_jobId job)
      || bool_decide (u_jobId u = dj_jobId job)
  | None => false
  end.

Definition applyUpdate (job : DownloadJob) (update : Update) : DownloadJob :=
  let r := u_result update in
  {| dj_jobId := dj_jobId job; dj_fileId := dj_fileId job;
     dj_status := status r; dj_progress := Some (progress r);
     dj_downloadUrl := downloadUrl r; dj_error := dj_error job;
     dj_message := Some (message r); dj_createdAt := dj_createdAt job;
     dj_updatedAt := Some (updatedAt r) |}.

(** The function that the poll hands to [setJobs]. *)
Definition applyUpdates (updates : list (option Update))
    (prev : list DownloadJob) : list DownloadJob :=
  map (λ job, match List.find (matches job) updates with
              | Some (Some update) => applyUpdate job update
              | Some None | None => job
              end) prev.

(** [onSuccess] of the mutation. *)
Definition addJob (jobId : string) (st : JobStatus) (fileId : Z) (now : Z)
    (prev : list DownloadJob) : list DownloadJob :=
  mkDownloadJob jobId fileId st None None None None now None :: prev.

(** One poll against the server in state [s]: a 404 makes
    [fetchJobStatus] throw, and the poll of that job gives [null]. *)
Definition fetchJobStatus (s : Sys) (jobId : string) : option Update :=
  match (jobStatus jobId s).1 with
  | StatusOf j r => Some (mkUpdate jobId j r)
  | Initiated _ _ _ | BadRequest | NotFound _ => None
  end.

Definition poll (s : Sys) (jobs : list DownloadJob) : list DownloadJob :=
  applyUpdates (map (fetchJobStatus s) (activeJobIds jobs)) jobs.

(** The jobs of a browser that submitted file 70000 and then 70007. *)
Definition two_jobs : list DownloadJob :=
  addJob "job-2" queued 70007 9100 (addJob "job-1" queued 70000 1002 []).

(** [addError] of the error log, on the entry it builds. *)
Definition addError {A} (entry : A) (prev : list A) : list A :=
  take 50 (entry :: prev).

(** ** A submission that is not enqueued

    Lines 751-765: with Redis the handler awaits the write of the initial
    record and then [downloadQueue.add]. When [add] rejects, the handler
    throws: the record stays, nothing is enqueued, and the error handler
    answers 500. [rid] is the request's identifier. *)
Definition downloadInitiateHandler_add_rejects (node_env : NodeEnv)
    (fileId : Z) (jobId rid : string) (now : Z) (err_message : string)
    (s : Sys) : ErrorResponse * Sys :=
  (onError node_env err_message (Some rid),
   setJobStatus jobId (initialRecord fileId now) s).

(** Job [j] has no item in the queue and no execution. *)
Definition unserved (j : string) (s : Sys) : Prop :=
  (j ∉ (queue s).*1) ∧ ∀ e, e ∈ execs s → e_jobId e ≠ j.

(** A job was delivered twice; then comes a submission whose item is not
    enqueued. *)
Definition orphaned_state : Sys :=
  (downloadInitiateHandler_add_rejects production 70007 "job-2" "req-1" 9100
     "Connection is closed." redelivered_state).2.
(* ================================================================== *)
(** * Properties *)
(* ================================================================== *)

(** ** Projections of the transitions *)



Lemma execs_tickWrite jobId p now cur s :
  execs (tickWrite jobId p now cur s) = execs s.
Proof. destruct cur as [r|]; simpl; [|done]. by destruct (status r). Qed.

(** The guard looks at the record that was read, not at the record that is
    stored when the write is made: when a job is delivered twice, a tick of
    one execution that read "processing" before the terminal write of the
    other resumes after it and stores "processing" again. *)
Example stale_tick_after_redelivery :
  let s := run mock_redis
             [Submit [number_of_Z 70001] "job-1" 1000 1000; Deliver 2000;
              Redeliver 0 3000; TickFire 0; Wake 1;
              Finish 1 9000 0 None "t" None; TickResume 0 9500] init in
  map status (history "job-1" s)
  = [queued; processing; processing; failed; processing].
Proof. vm_compute. reflexivity. Qed.

(** ** The status read *)

(** C9. The status handler returns NotFound when the store has no record
    under the identifier, which is the case of an expired key, and
    otherwise the stored record with the identifier echoed; in both cases
    the state after the read is the state before it. *)
Theorem status_read_only jobId s :
  snd (jobStatus jobId s) = s
  ∧ fst (jobStatus jobId s)
    = match jobs s !! jobId with
      | None => NotFound jobId
      | Some r => StatusOf jobId r
      end
  ∧ ∀ bucket, fst (jobStatus jobId (expire (mkEnv bucket true) jobId s))
              = NotFound jobId.
Proof.
  unfold jobStatus, getJobStatus. split_and!.
  - by destruct (jobs s !! jobId).
  - by destruct (jobs s !! jobId).
  - intros bucket. cbn. by rewrite lookup_delete_eq.
Qed.

Lemma stored_known_set jobId r s :
  stored_known s → stored_known (setJobStatus jobId r s).
Proof.
  intros Hs j r'. cbn. destruct (decide (jobId = j)) as [->|Hne].
  - intros _. by left.
  - rewrite lookup_insert_ne by done. intros Hl. right. by eapply Hs.
Qed.

Lemma stored_known_start jobId fileId now s :
  stored_known s → stored_known (processDownloadJob_start jobId fileId now s).
Proof. intros Hs. by apply (stored_known_set jobId _ s). Qed.

Lemma stored_known_step env a s : stored_known s → stored_known (step env a s).
Proof.
  intros Hs.
  destruct a as [ids uuid now now'|j|now|k now|k|k now|k|k now rnd hd tok sg|j];
    cbn.
  - unfold downloadInitiate.
    destruct (DownloadInitiateRequestSchema ids) as [[|f fs]|]; cbn;
      try done.
    pose proof (stored_known_set uuid (initialRecord f now) s Hs) as H1.
    destruct (REDIS_URL env); [done|]. by apply stored_known_start.
  - unfold jobStatus. by destruct (getJobStatus j s).
  - unfold deliver. destruct (REDIS_URL env); [|done].
    destruct (queue s) as [|[j f] q]; [done|].
    by apply (stored_known_start j f now (mkSys (jobs s) q (execs s) (writes s))).
  - unfold redeliver. destruct (REDIS_URL env); [|done].
    destruct (execs s !! k); [|done]. by apply stored_known_start.
  - unfold tickFire. destruct (execs s !! k) as [e|]; [|done].
    by destruct (e_phase e).
  - unfold tickResume. destruct (execs s !! k) as [e|]; [|done].
    destruct (e_inflight e) as [|[cur|] rest]; try done. cbn.
    destruct (status cur); try done.
    by apply (stored_known_set _ _ (set_exec k _ s)).
  - unfold wake. destruct (execs s !! k) as [e|]; [|done].
    by destruct (e_phase e).
  - unfold finish. destruct (execs s !! k) as [e|]; [|done].
    destruct (e_phase e), (e_inflight e); try done.
    by apply (stored_known_set _ _ (set_exec k _ s)).
  - unfold expire. destruct (REDIS_URL env); [|done].
    intros j' r. cbn. intros [_ Hl]%lookup_delete_Some. by eapply Hs.
Qed.

(** An identifier that was never drawn has no record. *)
Lemma stored_was_written env redelivery s :
  reachable env redelivery s → stored_known s.
Proof.
  induction 1 as [|s a _ IH _]; [|by apply stored_known_step].
  intros j r. cbn. by rewrite lookup_empty.
Qed.

Lemma never_submitted_not_found env redelivery s jobId :
  reachable env redelivery s → fresh jobId s →
  jobStatus jobId s = (NotFound jobId, s).
Proof.
  intros Hs Hf. unfold jobStatus, getJobStatus.
  destruct (jobs s !! jobId) as [r|] eqn:Hl; [|done].
  destruct Hf. by eapply stored_was_written.
Qed.

(** ** Submission *)

Lemma validFileId_in_bound x z :
  integer_of x = Some z → 10000 <= z <= 100000000 → validFileId x = Some z.
Proof.
  intros Hx Hz. unfold validFileId. rewrite Hx.
  destruct (10000 <=? z) eqn:H1, (z <=? 100000000) eqn:H2; simpl; try done;
    lia.
Qed.

Lemma validFileId_in_range x z : validFileId x = Some z → in_range x.
Proof.
  unfold validFileId. destruct (integer_of x) as [z'|] eqn:Hx; [|done].
  destruct (10000 <=? z') eqn:H1, (z' <=? 100000000) eqn:H2; try done.
  intros _. exists z'. split; [done|]. lia.
Qed.

(** C8. A submission that contains an identifier that is not an integer
    between 10000 and 100000000, such as 9999, is answered with the client
    error, and the state (store, queue, executions, write trace) is left
    as it was: no record is created and no work item is enqueued. *)
Theorem out_of_bound_rejected env file_ids x uuid now now' s :
  x ∈ file_ids → ¬ in_range x →
  downloadInitiate env file_ids uuid now now' s = (BadRequest, s).
Proof.
  intros Hin Hx. unfold downloadInitiate, DownloadInitiateRequestSchema.
  assert (Hm : mapM validFileId file_ids = None).
  { apply eq_None_not_Some. intros Hs. apply mapM_is_Some in Hs.
    rewrite Forall_forall in Hs. destruct (Hs x Hin) as [z Hz].
    apply Hx. by eapply validFileId_in_range. }
  rewrite Hm. by destruct (_ && _).
Qed.

Lemma out_of_bound_rejected_witness :
  downloadInitiate mock_memory
    [number_of_Z 70000; number_of_Z 9999] "job-1" 1000 1000 init
  = (BadRequest, init).
Proof.
  apply (out_of_bound_rejected _ _ (number_of_Z 9999)).
  - apply elem_of_cons. right. apply elem_of_cons. by left.
  - intros (z & Hz & Hb). vm_compute in Hz. injection Hz as <-. lia.
Defined.

Lemma schema_accepts file_ids :
  Forall in_range file_ids →
  (1 ≤ length file_ids ≤ 1000)%nat →
  ∃ ids, DownloadInitiateRequestSchema file_ids = Some ids
         ∧ Forall2 (fun x z => integer_of x = Some z) file_ids ids.
Proof.
  intros Hall Hlen. unfold DownloadInitiateRequestSchema.
  destruct (1 <=? length file_ids)%nat eqn:H1; [|apply Nat.leb_gt in H1; lia].
  destruct (length file_ids <=? 1000)%nat eqn:H2;
    [|apply Nat.leb_gt in H2; lia].
  simpl. clear H1 H2 Hlen.
  induction Hall as [|x xs (z & Hx & Hz) _ (ids & Hm & Hf)].
  - by exists [].
  - exists (z :: ids). split; [|by constructor].
    apply mapM_Some. constructor.
    + by apply validFileId_in_bound.
    + by apply mapM_Some.
Qed.

(** C4. A valid batch [x :: more] of in-range identifiers is answered with
    [{jobId, status: "queued", totalFileIds: N}]; the handler writes one
    record, the initial one (queued, progress 0, no URL, both timestamps
    equal to [now]), and hands over one work item, for the first
    identifier only: with Redis it is appended to the queue and nothing
    else changes; without Redis one execution of the worker body is
    started, which has made its transition write and is asleep, not
    finished, when the answer is returned. *)
Theorem submit_valid_batch env x more fileId uuid now now' s :
  integer_of x = Some fileId →
  Forall in_range (x :: more) →
  (length (x :: more) ≤ 1000)%nat →
  let out := downloadInitiate env (x :: more) uuid now now' s in
  let initial :=
    {| file_id := fileId; status := queued; progress := 0;
       downloadUrl := None; size := None; processingTimeMs := None;
       message := MsgQueued; createdAt := now; updatedAt := now |} in
  out.1 = Initiated uuid queued (length (x :: more))
  ∧ if REDIS_URL env then
      writes out.2 = (uuid, initial) :: writes s
      ∧ jobs out.2 = <[uuid := initial]> (jobs s)
      ∧ queue out.2 = queue s ++ [(uuid, fileId)]
      ∧ execs out.2 = execs s
    else
      (∃ transition, status transition = processing
         ∧ writes out.2 = (uuid, transition) :: (uuid, initial) :: writes s)
      ∧ queue out.2 = queue s
      ∧ execs out.2 = execs s ++ [mkExec uuid fileId now' 0 Sleeping []].
Proof.
  intros Hx Hall Hlen out initial.
  destruct (schema_accepts (x :: more) Hall) as (ids & Hs & Hf).
  { simpl in *. lia. }
  inversion Hf as [|? z ? zs Hz Hzs]; subst.
  assert (z = fileId) by congruence. subst z.
  pose proof (Forall2_length _ _ _ Hzs) as Hl.
  subst out. unfold downloadInitiate. rewrite Hs.
  unfold downloadInitiateHandler. simpl. rewrite Hl. split; [done|].
  destruct (REDIS_URL env); simpl; [done|].
  split_and!; try done. eexists. split; [|reflexivity]. done.
Qed.

Lemma submit_valid_batch_witness :
  let out := downloadInitiate mock_redis
               [number_of_Z 70000; number_of_Z 70001] "job-1" 1000 1001
               init in
  let initial :=
    {| file_id := 70000; status := queued; progress := 0;
       downloadUrl := None; size := None; processingTimeMs := None;
       message := MsgQueued; createdAt := 1000; updatedAt := 1000 |} in
  out.1 = Initiated "job-1" queued 2
  ∧ writes out.2 = [("job-1", initial)]
  ∧ jobs out.2 = <["job-1" := initial]> ∅
  ∧ queue out.2 = [("job-1", 70000)]
  ∧ execs out.2 = [].
Proof.
  apply (submit_valid_batch mock_redis (number_of_Z 70000)
           [number_of_Z 70001] 70000 "job-1" 1000 1001 init).
  - reflexivity.
  - apply Forall_cons. split; [exists 70000; split; [reflexivity|lia]|].
    apply Forall_cons. split; [exists 70001; split; [reflexivity|lia]|].
    apply Forall_nil_2.
  - simpl. lia.
Defined.

(** ** One job, served to the end *)

Lemma run_app env sched1 sched2 s :
  run env (sched1 ++ sched2) s = run env sched2 (run env sched1 s).
Proof. apply foldl_app. Qed.

Lemma sanitizeS3Key_truthy x : truthy (Some (sanitizeS3Key x)) = true.
Proof. reflexivity. Qed.

(** The terminal record in mock mode. *)
Lemma terminalRecord_mock env fileId start now rnd head token sign stored :
  mockMode env = true →
  let r := terminalRecord env fileId start now rnd head token sign stored in
  progress r = 100
  ∧ ((7 | fileId) → status r = completed ∧ downloadUrl r ≠ None ∧ size r ≠ None)
  ∧ (¬ (7 | fileId) → status r = failed ∧ downloadUrl r = None ∧ size r = None).
Proof.
  intros Hmock. unfold terminalRecord, checkS3Availability,
    generatePresignedUrl. rewrite Hmock.
  destruct (Z.rem fileId 7 =? 0) eqn:Hrem; cbn [available s3Key s3size].
  - rewrite sanitizeS3Key_truthy. cbn. split; [done|]. split; [done|].
    intros Hnd. exfalso. apply Hnd. apply Z.rem_divide; [done|lia].
  - cbn. split; [done|]. split; [|done].
    intros Hd. apply Z.rem_divide in Hd; [|done]. lia.
Qed.

(** The worker takes the waiting items in order; each becomes an execution
    that is asleep. *)
Lemma deliver_all env started s :
  REDIS_URL env = true →
  let s' := run env (replicate (length (queue s)) (Deliver started)) s in
  queue s' = []
  ∧ execs s' = execs s
               ++ map (fun it : string * Z =>
                         mkExec it.1 it.2 started 0 Sleeping []) (queue s).
Proof.
  intros Hredis. remember (queue s) as q eqn:Hq. revert s Hq.
  induction q as [|[j f] q IH]; intros s Hq; simpl.
  - split; [done|]. by rewrite app_nil_r.
  - set (s1 := processDownloadJob_start j f started
                 (mkSys (jobs s) q (execs s) (writes s))).
    assert (Hd : deliver env started s = s1).
    { unfold deliver. by rewrite Hredis, <- Hq. }
    rewrite !Hd. destruct (IH s1 eq_refl) as [IHq IHe]. split; [done|].
    rewrite IHe. subst s1. cbn. by rewrite <- app_assoc.
Qed.


Lemma schema_single x fileId :
  integer_of x = Some fileId → 10000 <= fileId <= 100000000 →
  DownloadInitiateRequestSchema [x] = Some [fileId].
Proof.
  intros Hx Hr. unfold DownloadInitiateRequestSchema. cbn.
  by rewrite (validFileId_in_bound x fileId).
Qed.

Lemma submit_served env s x fileId uuid now now' started :
  integer_of x = Some fileId → 10000 <= fileId <= 100000000 →
  let sched := Submit [x] uuid now now'
               :: (if REDIS_URL env
                   then replicate (S (length (queue s))) (Deliver started)
                   else []) in
  asleep (servedAt env s) uuid fileId
         (if REDIS_URL env then started else now') (run env sched s).
Proof.
  intros Hx Hr sched. subst sched. unfold servedAt. cbn [run foldl step].
  unfold downloadInitiate. rewrite (schema_single x fileId) by done.
  unfold downloadInitiateHandler. cbn [snd].
  destruct (REDIS_URL env) eqn:Hredis.
  - set (s0 := enqueue _ _).
    assert (Hq : queue s0 = queue s ++ [(uuid, fileId)]) by done.
    assert (Hl : S (length (queue s)) = length (queue s0)).
    { rewrite Hq, length_app. simpl. lia. }
    rewrite Hl. destruct (deliver_all env started s0 Hredis) as [_ He].
    fold (run env (replicate (length (queue s0)) (Deliver started)) s0).
    exists 0. rewrite He, Hq, map_app. cbn [map fst snd].
    replace (execs s0) with (execs s) by done.
    rewrite app_assoc. apply list_lookup_middle.
    by rewrite length_app, length_map.
  - exists 0. cbn. by apply list_lookup_middle.
Qed.

Lemma tick_keeps_asleep env i jobId fileId start t s :
  asleep i jobId fileId start s →
  asleep i jobId fileId start (run env [TickFire i; TickResume i t] s).
Proof.
  intros [p Hi]. pose proof (lookup_lt_Some _ _ _ Hi) as Hlt.
  cbn [run foldl step]. unfold tickFire. rewrite Hi. cbn.
  unfold tickResume. cbn [execs set_exec].
  rewrite list_lookup_insert_eq by done. cbn.
  eexists. rewrite execs_tickWrite. cbn.
  apply list_lookup_insert_eq. by rewrite length_insert.
Qed.

Lemma ticks_keep_asleep env i jobId fileId start ticks s :
  asleep i jobId fileId start s →
  asleep i jobId fileId start
    (run env (flat_map (fun t => [TickFire i; TickResume i t]) ticks) s).
Proof.
  revert s. induction ticks as [|t ticks IH]; intros s Hs; [done|].
  cbn [flat_map]. rewrite run_app. apply IH. by apply tick_keeps_asleep.
Qed.

Lemma wake_finish env i jobId fileId start ended rnd head token sign s :
  asleep i jobId fileId start s →
  let s' := run env [Wake i; Finish i ended rnd head token sign] s in
  let r := terminalRecord env fileId start ended rnd head token sign
             (getJobStatus jobId s) in
  jobs s' !! jobId = Some r ∧ writes s' = (jobId, r) :: writes s.
Proof.
  intros [p Hi]. pose proof (lookup_lt_Some _ _ _ Hi) as Hlt.
  cbn [run foldl step]. unfold wake. rewrite Hi. cbn.
  unfold finish. cbn [execs set_exec].
  rewrite list_lookup_insert_eq by done. cbn.
  split; [|done]. by rewrite lookup_insert_eq.
Qed.

(** No execution is ever stuck: its pending ticks can resume, its sleep
    can expire, and its terminal write can follow. *)
Lemma drain_ticks env i t q s e :
  execs s !! i = Some e → e_inflight e = q →
  ∃ e', execs (run env (replicate (length q) (TickResume i t)) s) !! i
        = Some e'
        ∧ e_jobId e' = e_jobId e ∧ e_fileId e' = e_fileId e
        ∧ e_startTime e' = e_startTime e ∧ e_phase e' = e_phase e
        ∧ e_inflight e' = [].
Proof.
  revert s e. induction q as [|cur q IH]; intros s e Hi Hq.
  - exists e. by rewrite Hq.
  - cbn [length replicate run foldl step].
    fold (run env (replicate (length q) (TickResume i t)) (tickResume i t s)).
    pose proof (lookup_lt_Some _ _ _ Hi) as Hlt.
    set (e1 := mkExec (e_jobId e) (e_fileId e) (e_startTime e)
                      (e_progress e) (e_phase e) q).
    assert (H1 : execs (tickResume i t s) !! i = Some e1).
    { unfold tickResume. rewrite Hi, Hq, execs_tickWrite. cbn.
      by apply list_lookup_insert_eq. }
    destruct (IH _ e1 H1 eq_refl) as (e' & He' & ? & ? & ? & ? & ?).
    by exists e'.
Qed.

Lemma unfinished_can_finish env s i e t ended rnd head token sign :
  execs s !! i = Some e → e_phase e ≠ Finished →
  ∃ stored,
    let sched := replicate (length (e_inflight e)) (TickResume i t)
                 ++ [Wake i; Finish i ended rnd head token sign] in
    jobs (run env sched s) !! e_jobId e
    = Some (terminalRecord env (e_fileId e) (e_startTime e) ended rnd head
              token sign stored).
Proof.
  intros Hi Hph.
  destruct (drain_ticks env i t _ s e Hi eq_refl)
    as (e' & He' & Hj & Hf & Hst & Hp & Hin).
  set (s1 := run env (replicate _ _) s) in *.
  pose proof (lookup_lt_Some _ _ _ He') as Hlt.
  exists (getJobStatus (e_jobId e) s1). cbn zeta. rewrite run_app.
  fold s1. cbn [run foldl step]. unfold wake. rewrite He'.
  destruct (e_phase e') eqn:Hph'; [| |congruence].
  - unfold finish. cbn [execs set_exec].
    rewrite list_lookup_insert_eq by done. cbn. rewrite Hin, Hj, Hf, Hst.
    unfold setJobStatus. cbn [jobs]. apply lookup_insert_eq.
  - unfold finish. rewrite He', Hph', Hin. cbn. rewrite Hj, Hf, Hst.
    unfold setJobStatus. cbn [jobs]. apply lookup_insert_eq.
Qed.

(** C7. In mock mode (no bucket configured), the job of a submitted
    in-range identifier that is served to the end, after any number of
    ticks and whatever the clock, the random draws and the state it was
    submitted in, ends with the terminal write completed / 100 / URL /
    size when the identifier is divisible by 7, and failed / 100 / null /
    null otherwise; that record is then the stored one. *)
Theorem mock_job_reaches_terminal env s x fileId uuid now now' started ticks
    ended rnd head token sign :
  mockMode env = true →
  integer_of x = Some fileId → 10000 <= fileId <= 100000000 →
  let s' := run env (lifecycle env s x uuid now now' started ticks ended rnd
                       head token sign) s in
  ∃ r, jobs s' !! uuid = Some r
       ∧ (∃ older, writes s' = (uuid, r) :: older)
       ∧ progress r = 100
       ∧ ((7 | fileId) →
          status r = completed ∧ downloadUrl r ≠ None ∧ size r ≠ None)
       ∧ (¬ (7 | fileId) →
          status r = failed ∧ downloadUrl r = None ∧ size r = None).
Proof.
  intros Hmock Hx Hr s'. subst s'. unfold lifecycle.
  rewrite app_comm_cons, !run_app.
  set (s1 := run env (Submit [x] uuid now now' :: _) s).
  set (s2 := run env (flat_map _ ticks) s1).
  assert (H1 : asleep (servedAt env s) uuid fileId
                 (if REDIS_URL env then started else now') s1)
    by by apply submit_served.
  assert (H2 : asleep (servedAt env s) uuid fileId
                 (if REDIS_URL env then started else now') s2)
    by by apply ticks_keep_asleep.
  destruct (wake_finish env _ _ _ _ ended rnd head token sign s2 H2)
    as [Hj Hw].
  eexists. split; [exact Hj|]. split; [by eexists|].
  by apply terminalRecord_mock.
Qed.

Lemma mock_job_reaches_terminal_witness :
  let s' := run mock_memory
              (lifecycle mock_memory init (number_of_Z 70000) "job-1"
                 1000 1001 2000 [3000; 4000] 9000 5 None "t" None) init in
  ∃ r, jobs s' !! "job-1" = Some r
       ∧ (∃ older, writes s' = ("job-1", r) :: older)
       ∧ progress r = 100
       ∧ ((7 | 70000) →
          status r = completed ∧ downloadUrl r ≠ None ∧ size r ≠ None)
       ∧ (¬ (7 | 70000) →
          status r = failed ∧ downloadUrl r = None ∧ size r = None).
Proof.
  apply (mock_job_reaches_terminal mock_memory init (number_of_Z 70000) 70000).
  - reflexivity.
  - reflexivity.
  - lia.
Defined.

(** ** The download URL and the status *)

Lemma elem_of_insert_inv {A} (l : list A) i x y :
  y ∈ <[i := x]> l → y = x ∨ y ∈ l.
Proof.
  intros Hy. apply list_elem_of_lookup in Hy as [k Hk].
  apply list_lookup_insert_Some in Hk as [(-> & -> & _)|[_ Hk]]; [by left|].
  right. by eapply list_elem_of_lookup_2.
Qed.

Lemma url_inv_set env jobId r s :
  url_inv env s → url_ok env r → url_inv env (setJobStatus jobId r s).
Proof.
  intros [Hw Hj Hf] Hr. split; cbn.
  - intros j r' Hin. apply elem_of_cons in Hin as [Heq|Hin]; [|eauto].
    by injection Heq as -> ->.
  - intros j r' Hl. destruct (decide (jobId = j)) as [->|Hne].
    + rewrite lookup_insert_eq in Hl. by injection Hl as <-.
    + rewrite lookup_insert_ne in Hl by done. eauto.
  - done.
Qed.

Lemma url_inv_set_exec env i e' s :
  url_inv env s →
  (∀ r, Some r ∈ e_inflight e' → url_ok env r) →
  url_inv env (set_exec i e' s).
Proof.
  intros [Hw Hj Hf] He. split; cbn; [done|done|].
  intros e r [->|Hin]%elem_of_insert_inv; eauto.
Qed.

Lemma url_inv_start env jobId fileId now s :
  url_inv env s → url_inv env (processDownloadJob_start jobId fileId now s).
Proof.
  intros Hs. unfold processDownloadJob_start.
  set (r := mkJobResult _ _ _ _ _ _ _ _ _).
  assert (Hr : url_ok env r) by (split; [done|by intros _ [=]]).
  destruct (url_inv_set env jobId r s Hs Hr) as [Hw Hj Hf].
  split; cbn; [done|done|].
  intros e r' [Hin|He%list_elem_of_singleton]%elem_of_app; [eauto|].
  subst e. cbn. by intros ?%elem_of_nil.
Qed.

Lemma url_ok_tick env cur p now :
  url_ok env cur →
  url_ok env (mkJobResult (file_id cur) (status cur) p (downloadUrl cur)
                (size cur) (processingTimeMs cur) (message cur)
                (createdAt cur) now).
Proof. done. Qed.

Lemma url_ok_terminal env fileId start now rnd head token sign stored :
  url_ok env (terminalRecord env fileId start now rnd head token sign stored).
Proof.
  unfold terminalRecord. destruct (_ && _); split; cbn; try done.
  intros Hmock _. unfold generatePresignedUrl. by rewrite Hmock.
Qed.

Lemma url_inv_tickWrite env jobId p now cur s :
  url_inv env s → (∀ r, cur = Some r → url_ok env r) →
  url_inv env (tickWrite jobId p now cur s).
Proof.
  intros Hs Hc. destruct cur as [r|]; cbn; [|done].
  destruct (status r) eqn:Hst; try done.
  apply url_inv_set; [done|]. rewrite <- Hst. apply url_ok_tick. eauto.
Qed.

Lemma url_inv_step env a s : url_inv env s → url_inv env (step env a s).
Proof.
  intros Hs.
  destruct a as [ids uuid now now'|j|now|k now|k|k now|k|k now rnd hd tok sg|j];
    cbn.
  - unfold downloadInitiate.
    destruct (DownloadInitiateRequestSchema ids) as [[|f fs]|]; cbn;
      try done.
    assert (H1 : url_inv env (setJobStatus uuid (initialRecord f now) s)).
    { apply url_inv_set; [done|]. split; [done|by intros _ [=]]. }
    destruct (REDIS_URL env); [|by apply url_inv_start].
    destruct H1. by split.
  - unfold jobStatus. by destruct (getJobStatus j s).
  - unfold deliver. destruct (REDIS_URL env); [|done].
    destruct (queue s) as [|[j f] q]; [done|].
    apply url_inv_start. destruct Hs. by split.
  - unfold redeliver. destruct (REDIS_URL env); [|done].
    destruct (execs s !! k); [|done]. by apply url_inv_start.
  - unfold tickFire. destruct (execs s !! k) as [e|] eqn:Hk; [|done].
    destruct (e_phase e); try done.
    apply url_inv_set_exec; [done|]. cbn.
    intros r [Hin|Hr%list_elem_of_singleton]%elem_of_app.
    + eapply url_inflight; [done| |done]. by eapply list_elem_of_lookup_2.
    + eapply url_jobs; [done|]. symmetry. exact Hr.
  - unfold tickResume. destruct (execs s !! k) as [e|] eqn:Hk; [|done].
    destruct (e_inflight e) as [|cur rest] eqn:Hin; [done|].
    assert (He : e ∈ execs s) by by eapply list_elem_of_lookup_2.
    apply url_inv_tickWrite.
    + apply url_inv_set_exec; [done|]. cbn. intros r Hr.
      eapply url_inflight; [done|done|]. rewrite Hin. by right.
    + intros r ->. eapply url_inflight; [done|done|]. rewrite Hin. by left.
  - unfold wake. destruct (execs s !! k) as [e|] eqn:Hk; [|done].
    destruct (e_phase e); try done.
    apply url_inv_set_exec; [done|]. cbn. intros r Hr.
    eapply url_inflight; [done| |done]. by eapply list_elem_of_lookup_2.
  - unfold finish. destruct (execs s !! k) as [e|] eqn:Hk; [|done].
    destruct (e_phase e), (e_inflight e); try done.
    apply url_inv_set; [|apply url_ok_terminal].
    apply url_inv_set_exec; [done|]. cbn. by intros r ?%elem_of_nil.
  - unfold expire. destruct (REDIS_URL env); [|done].
    destruct Hs as [Hw Hj Hf]. split; cbn; [done| |done].
    intros j' r [_ Hl]%lookup_delete_Some. eauto.
Qed.

Lemma url_inv_init env : url_inv env init.
Proof.
  split; cbn.
  - by intros j r ?%elem_of_nil.
  - intros j r. by rewrite lookup_empty.
  - by intros e r ?%elem_of_nil.
Qed.

Lemma url_inv_reachable env redelivery s :
  reachable env redelivery s → url_inv env s.
Proof.
  induction 1 as [|s a _ IH _]; [apply url_inv_init|by apply url_inv_step].
Qed.

Lemma reachable_run env redelivery sched s :
  reachable env redelivery s → admissible_all env redelivery sched s →
  reachable env redelivery (run env sched s).
Proof.
  revert s. induction sched as [|a sched IH]; intros s Hs Ha; [done|].
  destruct Ha as [Ha Hrest]. cbn. apply IH; [|done].
  by apply reachable_step.
Qed.

(** C1, amended. In every reachable state, redeliveries included, every
    record that was written and every record that is stored has a null
    [downloadUrl] unless its status is "completed"; in mock mode (no bucket
    configured) the URL is non-null exactly when the status is
    "completed". With a bucket, a completed record carries whatever the
    URL issuer returned, which is null when signing fails. *)
Theorem url_follows_status env redelivery s j r :
  reachable env redelivery s →
  (j, r) ∈ writes s ∨ jobs s !! j = Some r →
  (status r ≠ completed → downloadUrl r = None)
  ∧ (mockMode env = true → (downloadUrl r ≠ None ↔ status r = completed)).
Proof.
  intros Hs Hr. apply url_inv_reachable in Hs.
  assert (Hok : url_ok env r).
  { destruct Hr; [by eapply url_writes|by eapply url_jobs]. }
  destruct Hok as [H1 H2]. split; [done|].
  intros Hmock. split; [|by apply H2].
  intros Hurl. destruct (decide (status r = completed)); [done|].
  by specialize (H1 n).
Qed.

Lemma served_state_reachable : reachable mock_memory false served_state.
Proof.
  apply reachable_run; [apply reachable_init|].
  cbn. split_and!; try done. unfold fresh. cbn. apply not_elem_of_nil.
Qed.

Lemma url_follows_status_witness :
  (status served_record ≠ completed → downloadUrl served_record = None)
  ∧ (mockMode mock_memory = true →
     (downloadUrl served_record ≠ None ↔ status served_record = completed)).
Proof.
  apply (url_follows_status mock_memory false served_state "job-1").
  - exact served_state_reachable.
  - right. vm_compute. reflexivity.
Defined.

Lemma unsigned_state_reachable : reachable bucket_redis false unsigned_state.
Proof.
  apply reachable_run; [apply reachable_init|].
  cbn. split_and!; try done. unfold fresh. cbn. apply not_elem_of_nil.
Qed.

(** C1, as stated, fails: with a bucket configured, a job whose object
    exists and whose signing call throws is stored as "completed" with a
    null [downloadUrl]. *)
Lemma completed_without_url :
  ¬ (∀ env s j r, reachable env false s → jobs s !! j = Some r →
                  url_iff_completed r).
Proof.
  intros H.
  assert (Hl : jobs unsigned_state !! "job-1"
               = Some {| file_id := 70000; status := completed;
                         progress := 100; downloadUrl := None;
                         size := Some 512; processingTimeMs := Some 7000;
                         message := MsgReady 7000; createdAt := 2000;
                         updatedAt := 9000 |})
    by (vm_compute; reflexivity).
  destruct (H _ _ _ _ unsigned_state_reachable Hl) as [_ H2].
  by apply H2.
Qed.

(** ** Runs in which every item is delivered once *)

Lemma elem_of_fst_writes (tr : list (string * JobResult)) j r :
  (j, r) ∈ tr → j ∈ tr.*1.
Proof. intros H. by apply (list_elem_of_fmap_2' fst _ (j, r)). Qed.

(** An update of execution [i] that keeps its job, does not revive it and
    does not lower its counter. *)
Lemma good_set_exec i e e' s :
  execs s !! i = Some e →
  e_jobId e' = e_jobId e →
  (active e' → active e) →
  e_progress e <= e_progress e' <= 90 →
  (e_phase e' = Finished → e_inflight e' = []) →
  good s → good (set_exec i e' s).
Proof.
  intros Hi Hj Hact Hp Hfin ([Hqr Hnd Hqk Hek Hqe Hun Heb Hep Hef] & Hst & Hpr).
  assert (He : e ∈ execs s) by by eapply list_elem_of_lookup_2.
  split; [|done]. split; cbn; try done.
  - intros e2 [->|H2]%elem_of_insert_inv; [rewrite Hj|]; eauto.
  - intros j f e2 Hjf [->|H2]%elem_of_insert_inv; [rewrite Hj|]; eauto.
  - intros k k' e1 e2 H1 H2 A1 A2 Hjj.
    apply list_lookup_insert_Some in H1 as [(Hk1 & He1 & _)|[Hne1 H1]];
      apply list_lookup_insert_Some in H2 as [(Hk2 & He2 & _)|[Hne2 H2]].
    + congruence.
    + subst e1. exfalso. apply Hne2.
      apply (Hun i k' e e2); auto. congruence.
    + subst e2. exfalso. apply Hne1.
      apply (Hun i k e e1); auto. congruence.
    + eauto.
  - intros e2 r [->|H2]%elem_of_insert_inv A2 Hw; [|eauto].
    rewrite Hj in Hw. destruct (Heb e r He (Hact A2) Hw). lia.
  - intros e2 [->|H2]%elem_of_insert_inv; [|eauto].
    specialize (Hep e He). lia.
  - intros e2 [->|H2]%elem_of_insert_inv; eauto.
Qed.

(** A write of status "processing" and of the current counter, by an
    unfinished execution. *)
Lemma good_write_tick i e r s :
  execs s !! i = Some e → active e →
  status r = processing → progress r = e_progress e →
  good s → good (setJobStatus (e_jobId e) r s).
Proof.
  intros Hi Ha Hsr Hpr' ([Hqr Hnd Hqk Hek Hqe Hun Heb Hep Hef] & Hst & Hpr).
  assert (He : e ∈ execs s) by by eapply list_elem_of_lookup_2.
  split; [split; cbn; try done|split; cbn; (split; [|done])].
  - intros j f r' Hjf [Heq|Hw]%elem_of_cons; [|eauto].
    injection Heq as -> ->. by destruct (Hqe _ _ _ Hjf He).
  - intros j f Hjf. destruct (Hqk j f Hjf) as [r' Hr']. exists r'. by right.
  - intros e2 H2. destruct (Hek e2 H2) as [r' Hr']. exists r'. by right.
  - intros e2 r' H2 A2 [Heq|Hw]%elem_of_cons; [|eauto].
    injection Heq as Hjj ->. apply list_elem_of_lookup in H2 as [k Hk].
    assert (k = i) as -> by (eapply (Hun k i e2 e); eauto).
    assert (e2 = e) as -> by congruence. rewrite Hsr, Hpr'. simpl. lia.
  - intros r' Hw. rewrite Hsr. simpl. by destruct (Heb e r' He Ha Hw).
  - intros r' Hw. rewrite Hpr'. by destruct (Heb e r' He Ha Hw).
Qed.

(** The terminal write of execution [i], which thereby finishes. *)
Lemma good_write_terminal i e r s :
  execs s !! i = Some e → active e →
  terminal (status r) = true → progress r = 100 →
  good s →
  good (setJobStatus (e_jobId e) r
          (set_exec i (mkExec (e_jobId e) (e_fileId e) (e_startTime e)
                              (e_progress e) Finished []) s)).
Proof.
  intros Hi Ha Hsr Hpr' ([Hqr Hnd Hqk Hek Hqe Hun Heb Hep Hef] & Hst & Hpr).
  assert (He : e ∈ execs s) by by eapply list_elem_of_lookup_2.
  split; [split; cbn; try done|split; cbn; (split; [|done])].
  - intros j f r' Hjf [Heq|Hw]%elem_of_cons; [|eauto].
    injection Heq as -> ->. by destruct (Hqe _ _ _ Hjf He).
  - intros j f Hjf. destruct (Hqk j f Hjf) as [r' Hr']. exists r'. by right.
  - intros e2 [->|H2]%elem_of_insert_inv; cbn.
    + exists r. by left.
    + destruct (Hek e2 H2) as [r' Hr']. exists r'. by right.
  - intros j f e2 Hjf [->|H2]%elem_of_insert_inv; cbn; eauto.
  - intros k k' e1 e2 H1 H2 A1 A2 Hjj.
    apply list_lookup_insert_Some in H1 as [(_ & He1 & _)|[Hne1 H1]];
      [by subst e1|].
    apply list_lookup_insert_Some in H2 as [(_ & He2 & _)|[Hne2 H2]];
      [by subst e2|].
    eauto.
  - intros e2 r' H2 A2 Hw.
    apply list_elem_of_lookup in H2 as [k Hk].
    apply list_lookup_insert_Some in Hk as [(_ & He2 & _)|[Hne Hk]];
      [by subst e2|].
    assert (H2 : e2 ∈ execs s) by by eapply list_elem_of_lookup_2.
    apply elem_of_cons in Hw as [Heq|Hw]; [|eauto].
    injection Heq as Hjj ->. exfalso. apply Hne.
    apply (Hun i k e e2); auto.
  - intros e2 [->|H2]%elem_of_insert_inv; cbn; eauto.
  - intros e2 [->|H2]%elem_of_insert_inv; cbn; eauto.
  - intros r' Hw. destruct (Heb e r' He Ha Hw).
    destruct (status r'), (status r); simpl in *; try done; lia.
  - intros r' Hw. rewrite Hpr'. destruct (Heb e r' He Ha Hw).
    specialize (Hep e He). lia.
Qed.

(** A waiting item leaves the queue and its execution starts. *)
Lemma good_start_item q1 j f q2 now s :
  queue s = q1 ++ (j, f) :: q2 →
  good s →
  good (processDownloadJob_start j f now
          (mkSys (jobs s) (q1 ++ q2) (execs s) (writes s))).
Proof.
  intros Hq ([Hqr Hnd Hqk Hek Hqe Hun Heb Hep Hef] & Hst & Hpr).
  assert (Hjq : (j, f) ∈ queue s).
  { rewrite Hq. apply elem_of_app. right. by left. }
  assert (Hsub : ∀ it, it ∈ q1 ++ q2 → it ∈ queue s).
  { intros it. rewrite Hq, !elem_of_app, elem_of_cons. tauto. }
  assert (Hnj : ∀ f', (j, f') ∉ q1 ++ q2).
  { intros f' Hin. rewrite Hq, fmap_app, fmap_cons in Hnd. cbn in Hnd.
    apply NoDup_app in Hnd as (_ & Hd1 & Hd2%NoDup_cons_1_1).
    apply elem_of_app in Hin as [Hin|Hin].
    - apply (Hd1 j); [|by left]. by apply (list_elem_of_fmap_2' fst _ (j, f')).
    - apply Hd2. by apply (list_elem_of_fmap_2' fst _ (j, f')). }
  split; [split; cbn; try done|split; cbn; (split; [|done])].
  - intros j' f' r' Hjf [Heq|Hw]%elem_of_cons; [|eauto].
    injection Heq as -> ->. by destruct (Hnj f').
  - rewrite Hq, fmap_app, fmap_cons in Hnd. rewrite fmap_app.
    apply NoDup_app in Hnd as (N1 & N2 & N3%NoDup_cons_1_2).
    apply NoDup_app. split_and!; [done| |done].
    intros x Hx1 Hx2. apply (N2 x Hx1). by right.
  - intros j' f' Hjf. destruct (Hqk j' f' (Hsub _ Hjf)) as [r' Hr'].
    exists r'. by right.
  - intros e2 [H2|H2%list_elem_of_singleton]%elem_of_app.
    + destruct (Hek e2 H2) as [r' Hr']. exists r'. by right.
    + subst e2. cbn. eexists. by left.
  - intros j' f' e2 Hjf [H2|H2%list_elem_of_singleton]%elem_of_app; [eauto|].
    subst e2. cbn. intros ->. by destruct (Hnj f').
  - intros k k' e1 e2 H1 H2 A1 A2 Hjj.
    apply lookup_snoc_Some in H1 as [[Hk1 H1]|[Hk1 He1]];
      apply lookup_snoc_Some in H2 as [[Hk2 H2]|[Hk2 He2]].
    + eauto.
    + subst e2. cbn in Hjj. exfalso. apply (Hqe j f e1 Hjq); [|done].
      by eapply list_elem_of_lookup_2.
    + subst e1. cbn in Hjj. exfalso. apply (Hqe j f e2 Hjq); [|done].
      by eapply list_elem_of_lookup_2.
    + congruence.
  - intros e2 r' [H2|H2%list_elem_of_singleton]%elem_of_app A2
      [Heq|Hw]%elem_of_cons.
    + injection Heq as Hjj ->. by destruct (Hqe j f e2 Hjq H2).
    + eauto.
    + subst e2. injection Heq as ->. cbn. lia.
    + subst e2. cbn in *. destruct (Hqr j f r' Hjq Hw) as [-> ->]. cbn. lia.
  - intros e2 [H2|H2%list_elem_of_singleton]%elem_of_app; [eauto|].
    subst e2. cbn. lia.
  - intros e2 [H2|H2%list_elem_of_singleton]%elem_of_app; [eauto|].
    by subst e2.
  - intros r' Hw. destruct (Hqr j f r' Hjq Hw) as [-> _]. cbn. lia.
  - intros r' Hw. destruct (Hqr j f r' Hjq Hw) as [_ ->]. lia.
Qed.

(** The initial write of a fresh job, with its item put in the queue. *)
Lemma good_submit uuid f now s :
  fresh uuid s → good s →
  good (enqueue (uuid, f) (setJobStatus uuid (initialRecord f now) s)).
Proof.
  intros Hfresh ([Hqr Hnd Hqk Hek Hqe Hun Heb Hep Hef] & Hst & Hpr).
  assert (Hnw : ∀ r, (uuid, r) ∉ writes s).
  { intros r Hr. apply Hfresh. by eapply elem_of_fst_writes. }
  assert (Hnq : ∀ f', (uuid, f') ∉ queue s).
  { intros f' Hin. destruct (Hqk _ _ Hin) as [r Hr]. by apply (Hnw r). }
  assert (Hne : ∀ e, e ∈ execs s → e_jobId e ≠ uuid).
  { intros e He Heq. destruct (Hek _ He) as [r Hr]. rewrite Heq in Hr.
    by apply (Hnw r). }
  split; [split; cbn; try done|split; cbn; (split; [|done])].
  - intros j f' r' [Hjf|Hjf%list_elem_of_singleton]%elem_of_app
      [Heq|Hw]%elem_of_cons.
    + injection Heq as -> ->. by destruct (Hnq f').
    + eauto.
    + by injection Heq as -> ->.
    + injection Hjf as -> ->. by destruct (Hnw r').
  - rewrite fmap_app. apply NoDup_app. split_and!; [done| |].
    + intros x Hx Hx'%list_elem_of_singleton. cbn in Hx'. subst x.
      apply list_elem_of_fmap in Hx as ([j' f'] & Hj' & Hin). cbn in Hj'.
      subst j'. by apply (Hnq f').
    + apply NoDup_singleton.
  - intros j f' [Hjf|Hjf%list_elem_of_singleton]%elem_of_app.
    + destruct (Hqk _ _ Hjf) as [r' Hr']. exists r'. by right.
    + injection Hjf as -> ->. eexists. by left.
  - intros e2 H2. destruct (Hek e2 H2) as [r' Hr']. exists r'. by right.
  - intros j f' e2 [Hjf|Hjf%list_elem_of_singleton]%elem_of_app H2; [eauto|].
    injection Hjf as -> ->. by apply Hne.
  - intros e2 r' H2 A2 [Heq|Hw]%elem_of_cons; [|eauto].
    injection Heq as Hjj ->. by destruct (Hne e2 H2).
  - intros r' Hw. by destruct (Hnw r').
  - intros r' Hw. by destruct (Hnw r').
Qed.

Lemma good_jobs s m :
  good s → good (mkSys m (queue s) (execs s) (writes s)).
Proof. intros ([] & Hst & Hpr). by split. Qed.

Lemma good_init : good init.
Proof.
  split; [|done]. split; cbn; try (intros *; by rewrite ?elem_of_nil).
  apply NoDup_nil_2.
Qed.

Lemma terminalRecord_terminal env fileId start now rnd head token sign stored :
  let r := terminalRecord env fileId start now rnd head token sign stored in
  terminal (status r) = true ∧ progress r = 100.
Proof. unfold terminalRecord. by destruct (_ && _). Qed.

Lemma good_step env a s :
  admissible false a s → good s → good (step env a s).
Proof.
  intros Hadm Hs.
  destruct a as [ids uuid now now'|j|now|k now|k|k now|k|k now rnd hd tok sg|j];
    cbn.
  - unfold downloadInitiate.
    destruct (DownloadInitiateRequestSchema ids) as [[|f fs]|]; cbn;
      try done.
    pose proof (good_submit uuid f now s Hadm Hs) as H1.
    destruct (REDIS_URL env); [done|].
    pose proof (good_start_item (queue s) uuid f [] now'
                  (enqueue (uuid, f)
                     (setJobStatus uuid (initialRecord f now) s))
                  eq_refl H1) as H2.
    cbn in H2. by rewrite app_nil_r in H2.
  - unfold jobStatus. by destruct (getJobStatus j s).
  - unfold deliver. destruct (REDIS_URL env); [|done].
    destruct (queue s) as [|[j f] q] eqn:Hq; [done|].
    apply (good_start_item [] j f q now s Hq Hs).
  - done.
  - unfold tickFire. destruct (execs s !! k) as [e|] eqn:Hk; [|done].
    destruct (e_phase e) eqn:Hph; try done.
    assert (He : e ∈ execs s) by by eapply list_elem_of_lookup_2.
    pose proof (inv_exec_progress s (proj1 Hs) e He) as Hp.
    apply (good_set_exec k e); cbn; try done; [|lia].
    intros _. unfold active. by rewrite Hph.
  - unfold tickResume. destruct (execs s !! k) as [e|] eqn:Hk; [|done].
    destruct (e_inflight e) as [|cur rest] eqn:Hin; [done|].
    assert (He : e ∈ execs s) by by eapply list_elem_of_lookup_2.
    pose proof (inv_exec_progress s (proj1 Hs) e He) as Hp.
    assert (Ha : active e).
    { intros Hph. by rewrite (inv_exec_finished s (proj1 Hs) e He Hph) in Hin. }
    set (e' := mkExec _ _ _ _ _ rest).
    assert (H1 : good (set_exec k e' s)).
    { apply (good_set_exec k e); cbn; try done. lia. }
    destruct cur as [cur|]; cbn; [|done].
    destruct (status cur) eqn:Hst; try done.
    apply (good_write_tick k e'); try done.
    cbn. apply list_lookup_insert_eq. by eapply lookup_lt_Some.
  - unfold wake. destruct (execs s !! k) as [e|] eqn:Hk; [|done].
    destruct (e_phase e) eqn:Hph; try done.
    assert (He : e ∈ execs s) by by eapply list_elem_of_lookup_2.
    pose proof (inv_exec_progress s (proj1 Hs) e He) as Hp.
    apply (good_set_exec k e); cbn; try done; [|lia].
    intros _. unfold active. by rewrite Hph.
  - unfold finish. destruct (execs s !! k) as [e|] eqn:Hk; [|done].
    destruct (e_phase e) eqn:Hph; try done.
    destruct (e_inflight e) eqn:Hin; try done.
    apply good_write_terminal; try done.
    + unfold active. by rewrite Hph.
    + apply terminalRecord_terminal.
    + apply terminalRecord_terminal.
  - unfold expire. destruct (REDIS_URL env); [|done]. by apply good_jobs.
Qed.

Lemma good_reachable env s : reachable env false s → good s.
Proof.
  induction 1 as [|s a _ IH Ha]; [apply good_init|by apply good_step].
Qed.




Lemma redelivered_state_reachable : reachable mock_redis true redelivered_state.
Proof.
  apply reachable_run; [apply reachable_init|].
  cbn. split_and!; try done. unfold fresh. cbn. apply not_elem_of_nil.
Qed.


(** ** Progress *)





(** The progress values written for one job with twelve ticks. *)
Example progress_sequence :
  map progress
    (history "job-1"
       (run mock_memory
          (lifecycle mock_memory init (number_of_Z 70000) "job-1" 0 0 0
             (seq_Z_ticks 12) 99 0 None "t" None) init))
  = [0; 0; 10; 20; 30; 40; 50; 60; 70; 80; 90; 90; 90; 90; 100].
Proof. vm_compute. reflexivity. Qed.

(** ** The creation timestamp *)

(** C6, evaluated. The transition write of the worker body stores a new
    [createdAt]: for a job submitted at instant 1000 and taken by the
    worker at instant 5000, the initial record carries 1000 and the
    "processing" record that replaces it carries 5000. *)
Theorem createdAt_reset_by_transition :
  map createdAt (history "job-1" taken_late_state) = [1000; 5000]
  ∧ ∀ jobId fileId now s,
      ∃ r, writes (processDownloadJob_start jobId fileId now s)
           = (jobId, r) :: writes s
           ∧ createdAt r = now.
Proof.
  split; [vm_compute; reflexivity|].
  intros jobId fileId now s. eexists. split; [reflexivity|done].
Qed.

(** ** Key normalisation *)

Lemma floor_abs_spec x n :
  floor_abs_is x n → Math_floor (Math_abs x) = IInt false n.
Proof.
  destruct x as [s|s| |s m e]; cbn; try done.
  - by intros ->.
  - destruct (0 <=? e) eqn:He.
    + intros Hn. f_equal. apply Z.leb_le in He.
      rewrite Z.shiftl_mul_pow2 by done. rewrite <- Hn. apply N2Z.id.
    + intros [H1 H2]. f_equal. apply Z.leb_gt in He.
      rewrite Z.shiftr_div_pow2 by lia.
      assert (Hp : 0 < 2 ^ (- e)) by (apply Z.pow_pos_nonneg; lia).
      assert (Hd : Z.pos m / 2 ^ (- e) = Z.of_N n).
      { symmetry. apply (Z.div_unique_pos _ _ _ (Z.pos m - Z.of_N n * 2 ^ (- e)));
          [|lia]. lia. }
      rewrite Hd. apply N2Z.id.
Qed.

Lemma String_safe_integer n :
  (n < 2 ^ 53)%N → String_ (IInt false n) = decimal n.
Proof.
  intros Hn. cbn [String_ andb]. unfold shortest.
  destruct (n <? 2 ^ 53)%N eqn:H53; [|apply N.ltb_ge in H53; lia].
  destruct (n <? 10 ^ 21)%N eqn:H21; [done|].
  apply N.ltb_ge in H21. exfalso.
  assert ((2 ^ 53 < 10 ^ 21)%N) by by vm_compute. lia.
Qed.

Lemma append_cons x a b : String x a +:+ b = String x (a +:+ b).
Proof. reflexivity. Qed.

Lemma append_nil b : EmptyString +:+ b = b.
Proof. reflexivity. Qed.

Lemma append_assoc_s (a b c : string) : (a +:+ b) +:+ c = a +:+ (b +:+ c).
Proof.
  induction a as [|x a IH]; [done|]. by rewrite !append_cons, IH.
Qed.

Lemma count_char_app c s t :
  count_char c (s +:+ t) = (count_char c s + count_char c t)%nat.
Proof.
  induction s as [|x s IH]; [done|].
  rewrite append_cons. cbn [count_char]. rewrite IH. lia.
Qed.

Lemma has_dotdot_app s t :
  count_char "." s = 0%nat → has_dotdot (s +:+ t) = has_dotdot t.
Proof.
  induction s as [|x s IH]; [done|].
  rewrite append_cons. cbn [count_char has_dotdot].
  destruct (Ascii.eqb "." x) eqn:Hx; [done|]. intros Hs.
  rewrite Ascii.eqb_sym, Hx. cbn [andb orb]. by apply IH.
Qed.

Lemma is_digit_plain c :
  is_digit c = true → Ascii.eqb "/" c = false ∧ Ascii.eqb "." c = false.
Proof. by destruct c as [[] [] [] [] [] [] [] []]. Qed.

Lemma digits_only_plain s :
  digits_only s = true →
  count_char "/" s = 0%nat ∧ count_char "." s = 0%nat.
Proof.
  induction s as [|c s IH]; [done|]. cbn [digits_only count_char].
  intros [Hc Hs]%andb_true_iff. destruct (is_digit_plain c Hc) as [-> ->].
  by apply IH.
Qed.

Lemma digits_only_Forall s :
  digits_only s = true
  ↔ Forall (fun c => is_digit c = true) (list_ascii_of_string s).
Proof.
  induction s as [|c s IH]; [done|].
  cbn [digits_only list_ascii_of_string].
  rewrite andb_true_iff, Forall_cons, IH. done.
Qed.

Lemma digits_only_uint d : digits_only (NilEmpty.string_of_uint d) = true.
Proof. induction d; cbn; done. Qed.

Lemma digits_only_decimal n : digits_only (decimal n) = true.
Proof.
  unfold decimal, NilZero.string_of_uint.
  destruct (N.to_uint n) eqn:Hd; try done; rewrite <- Hd;
    apply digits_only_uint.
Qed.

Lemma Forall_strip0 (P : ascii → Prop) l : Forall P l → Forall P (strip0 l).
Proof.
  induction 1 as [|c l Hc Hl IH]; cbn; [done|].
  destruct (Ascii.eqb_spec c "0") as [->|Hne]; [done|].
  destruct c as [[] [] [] [] [] [] [] []]; try done; by constructor.
Qed.

Lemma key_ok_plain body :
  count_char "/" body = 0%nat → count_char "." body = 0%nat → key_ok body.
Proof.
  intros Hs Hd. split; [done|]. intros pre Hpre.
  by rewrite !has_dotdot_app.
Qed.

Lemma key_ok_digits body : digits_only body = true → key_ok body.
Proof. intros [??]%digits_only_plain. by apply key_ok_plain. Qed.

Lemma key_ok_exponential w : key_ok (exponential w).
Proof.
  unfold exponential.
  pose proof (digits_only_decimal w) as Hds.
  pose proof (digits_only_decimal
                (N.of_nat (String.length (decimal w) - 1))) as He.
  set (e := decimal (N.of_nat _)) in *.
  assert (Hl : Forall (fun c => is_digit c = true)
                 (rev (strip0 (rev (list_ascii_of_string (decimal w)))))).
  { apply Forall_rev, Forall_strip0, Forall_rev. by apply digits_only_Forall. }
  destruct (rev _) as [|d [|d2 rest]]; [by apply key_ok_digits| |].
  - apply Forall_cons in Hl as [Hd _].
    destruct (is_digit_plain d Hd) as [Hd_s Hd_d].
    destruct (digits_only_plain _ He) as [He_s He_d].
    rewrite !append_cons, !append_nil.
    apply key_ok_plain; cbn [count_char]; by rewrite ?Hd_s, ?Hd_d, ?He_s, ?He_d.
  - apply Forall_cons in Hl as [Hd Hr].
    assert (Hr' : digits_only (string_of_list_ascii (d2 :: rest)) = true).
    { apply digits_only_Forall. by rewrite list_ascii_of_string_of_list_ascii. }
    apply Forall_cons in Hr as [Hd2 _].
    destruct (is_digit_plain d Hd) as [Hd_s Hd_d].
    destruct (is_digit_plain d2 Hd2) as [_ Hd2_d].
    destruct (digits_only_plain _ Hr') as [Hr_s Hr_d].
    destruct (digits_only_plain _ He) as [He_s He_d].
    set (r := string_of_list_ascii (d2 :: rest)) in *.
    assert (Hstart : ∀ t, starts_with_dot (r +:+ t) = false).
    { intros t. subst r. cbn [string_of_list_ascii]. rewrite append_cons.
      cbn [starts_with_dot]. by rewrite Ascii.eqb_sym. }
    split.
    + cbn [count_char]. rewrite Hd_s. rewrite !append_cons, !append_nil.
      cbn [count_char]. rewrite !count_char_app. cbn [count_char].
      rewrite Hr_s, He_s. done.
    + intros pre Hpre. rewrite has_dotdot_app by done.
      rewrite !append_cons, !append_nil. cbn [has_dotdot].
      rewrite Ascii.eqb_sym, Hd_d. cbn [andb orb].
      rewrite !append_assoc_s, Hstart. cbn [andb orb].
      rewrite has_dotdot_app by done.
      rewrite !append_cons. cbn [has_dotdot starts_with_dot].
      rewrite has_dotdot_app by done. done.
Qed.

Lemma floor_abs_cases x :
  Math_floor (Math_abs x) = INaN
  ∨ Math_floor (Math_abs x) = IInfinity false
  ∨ ∃ n, Math_floor (Math_abs x) = IInt false n.
Proof. destruct x; cbn; eauto. Qed.

Lemma key_ok_String x : key_ok (String_ (Math_floor (Math_abs x))).
Proof.
  destruct (floor_abs_cases x) as [->|[->|[n ->]]].
  - by apply key_ok_plain.
  - by apply key_ok_plain.
  - cbn [String_ andb]. destruct (_ <? _)%N.
    + apply key_ok_digits, digits_only_decimal.
    + apply key_ok_exponential.
Qed.

Lemma sanitizeS3Key_safe_integer x n :
  floor_abs_is x n → (n < 2 ^ 53)%N →
  sanitizeS3Key x = "downloads/" +:+ decimal n +:+ ".zip".
Proof.
  intros Hfl Hn. unfold sanitizeS3Key.
  by rewrite (floor_abs_spec x n), String_safe_integer.
Qed.

(** C10, amended. For every finite number whose integer part
    floor(|fileId|) is below 2^53, negative and fractional values
    included, the key is ["downloads/"], the decimal digits of that
    integer part, and [".zip"]. For every number whatsoever the key has one
    ["/"], the one of the template, and no [".."]. *)
Theorem sanitizeS3Key_spec x :
  (∀ n, floor_abs_is x n → (n < 2 ^ 53)%N →
        sanitizeS3Key x = "downloads/" +:+ decimal n +:+ ".zip")
  ∧ count_char "/" (sanitizeS3Key x) = 1%nat
  ∧ has_dotdot (sanitizeS3Key x) = false.
Proof.
  split_and!; [by apply sanitizeS3Key_safe_integer|unfold sanitizeS3Key..].
  - destruct (key_ok_String x) as [Hs _].
    rewrite !count_char_app, Hs. done.
  - destruct (key_ok_String x) as [_ Hd]. by apply Hd.
Qed.

Lemma sanitizeS3Key_spec_witness :
  sanitizeS3Key (S754_finite true 140001 (-1)) = "downloads/70000.zip".
Proof.
  apply (proj1 (sanitizeS3Key_spec (S754_finite true 140001 (-1))) 70000%N).
  - cbn. lia.
  - reflexivity.
Defined.

(** C10, as stated, fails: from 10^21 on, [String] uses exponent
    notation, and the key of 10^21 is [downloads/1e+21.zip]. *)
Lemma exponent_notation_key :
  floor_abs_is ten_to_21 (10 ^ 21)
  ∧ sanitizeS3Key ten_to_21 = "downloads/1e+21.zip"
  ∧ sanitizeS3Key ten_to_21 ≠ "downloads/" +:+ decimal (10 ^ 21) +:+ ".zip".
Proof.
  split_and!.
  - vm_compute. reflexivity.
  - vm_compute. reflexivity.
  - vm_compute. discriminate.
Qed.

(** Other keys outside the validated range. *)
Example keys_of_special_numbers :
  sanitizeS3Key S754_nan = "downloads/NaN.zip"
  ∧ sanitizeS3Key (S754_infinity true) = "downloads/Infinity.zip"
  ∧ sanitizeS3Key (number_of_Z (2 ^ 60)) = "downloads/1152921504606847000.zip"
  ∧ sanitizeS3Key (number_of_Z (2 ^ 70))
    = "downloads/1.1805916207174113e+21.zip".
Proof. vm_compute. done. Qed.

(** Below 2^53 the search for the shortest digits stops at the number
    itself. *)
Example shortest_of_safe_integers :
  search 70000 5 1 17 = 70000%N
  ∧ search 100000000 9 1 17 = 100000000%N
  ∧ search (2 ^ 53 - 1) 16 1 17 = (2 ^ 53 - 1)%N.
Proof. vm_compute. done. Qed.

(** A validated identifier has the key of its decimal digits. *)
Lemma integer_of_floor_abs x z :
  integer_of x = Some z → 0 <= z → floor_abs_is x (Z.to_N z).
Proof.
  destruct x as [s|s| |s m e]; cbn; try done.
  - by intros [= <-] _.
  - destruct (0 <=? e) eqn:He.
    + intros [= <-] Hz. apply Z.leb_le in He.
      assert (Hm : 0 < Z.shiftl (Z.pos m) e).
      { rewrite Z.shiftl_mul_pow2 by done.
        apply Z.mul_pos_pos; [done|]. by apply Z.pow_pos_nonneg. }
      destruct s; cbn in *; [lia|].
      rewrite Z2N.id by lia. by apply Z.shiftl_mul_pow2.
    + destruct (_ =? 0) eqn:Hl; [|done]. intros [= <-] Hz.
      apply Z.leb_gt in He. apply Z.eqb_eq in Hl.
      rewrite Z.land_ones in Hl by lia.
      assert (Hp : 0 < 2 ^ (- e)) by (apply Z.pow_pos_nonneg; lia).
      assert (Hq : 0 <= Z.shiftr (Z.pos m) (- e)).
      { rewrite Z.shiftr_div_pow2 by lia. apply Z.div_pos; lia. }
      destruct s; cbn in *.
      * assert (Z.shiftr (Z.pos m) (- e) = 0) as Hz0 by lia.
        rewrite Hz0. cbn. rewrite Z.shiftr_div_pow2 in Hz0 by lia.
        pose proof (Z.div_mod (Z.pos m) (2 ^ (- e))). lia.
      * rewrite Z2N.id by lia. rewrite Z.shiftr_div_pow2 by lia.
        pose proof (Z.div_mod (Z.pos m) (2 ^ (- e))). lia.
Qed.

Lemma validated_key x z :
  validFileId x = Some z →
  sanitizeS3Key x = "downloads/" +:+ decimal (Z.to_N z) +:+ ".zip".
Proof.
  unfold validFileId. destruct (integer_of x) as [z'|] eqn:Hx; [|done].
  destruct (_ && _) eqn:Hb; [|done]. intros [= <-].
  apply andb_true_iff in Hb as [H1%Z.leb_le H2%Z.leb_le].
  assert (H53 : 100000000 < 2 ^ 53) by by vm_compute.
  apply sanitizeS3Key_safe_integer.
  - apply integer_of_floor_abs; [done|lia].
  - apply N2Z.inj_lt. rewrite Z2N.id by lia. change (Z.of_N (2 ^ 53)) with (2 ^ 53).
    lia.
Qed.

(** The writes after the transition keep the [createdAt] they find. *)
Lemma createdAt_kept_after_transition env jobId p now cur s fileId start rnd
    head token sign :
  (status cur = processing →
   ∃ r, writes (tickWrite jobId p now (Some cur) s) = (jobId, r) :: writes s
        ∧ createdAt r = createdAt cur)
  ∧ createdAt (terminalRecord env fileId start now rnd head token sign
                 (Some cur))
    = createdAt cur.
Proof.
  split.
  - intros Hst. cbn. rewrite Hst. eexists. by split.
  - unfold terminalRecord. by destruct (_ && _).
Qed.

(* ================================================================== *)
(** * Further properties *)
(* ================================================================== *)

(** ** Every step is one of the transitions *)

Lemma step_transition env a s : transition env s a (step env a s).
Proof.
  destruct a as [ids uuid now now'|j|now|k now|k|k now|k|k now rnd hd tok sg|j];
    cbn.
  - unfold downloadInitiate.
    destruct (DownloadInitiateRequestSchema ids) as [[|f fs]|] eqn:Hs; cbn;
      try apply tr_skip.
    destruct (REDIS_URL env) eqn:Hr.
    + by eapply tr_submit_queue.
    + by eapply tr_submit_spawn.
  - unfold jobStatus. destruct (getJobStatus j s); apply tr_skip.
  - unfold deliver. destruct (REDIS_URL env) eqn:Hr; [|apply tr_skip].
    destruct (queue s) as [|[j f] q] eqn:Hq; [apply tr_skip|].
    by apply tr_deliver.
  - unfold redeliver. destruct (REDIS_URL env) eqn:Hr; [|apply tr_skip].
    destruct (execs s !! k) as [e|] eqn:Hk; [|apply tr_skip].
    by apply tr_redeliver.
  - unfold tickFire. destruct (execs s !! k) as [e|] eqn:Hk; [|apply tr_skip].
    destruct (e_phase e) eqn:Hph; try apply tr_skip. by apply tr_tick_fire.
  - unfold tickResume. destruct (execs s !! k) as [e|] eqn:Hk;
      [|apply tr_skip].
    destruct (e_inflight e) as [|cur rest] eqn:Hin; [apply tr_skip|].
    destruct cur as [c|]; cbn.
    + destruct (status c) eqn:Hst;
        try (eapply tr_tick_drop; [done..|]; intros c' [= <-]; congruence).
      by apply tr_tick_write.
    + by eapply tr_tick_drop.
  - unfold wake. destruct (execs s !! k) as [e|] eqn:Hk; [|apply tr_skip].
    destruct (e_phase e) eqn:Hph; try apply tr_skip. by apply tr_wake.
  - unfold finish. destruct (execs s !! k) as [e|] eqn:Hk; [|apply tr_skip].
    destruct (e_phase e) eqn:Hph; try apply tr_skip.
    destruct (e_inflight e) eqn:Hin; try apply tr_skip.
    by apply tr_finish.
  - unfold expire. destruct (REDIS_URL env) eqn:Hr; [|apply tr_skip].
    by apply tr_expire.
Qed.

Ltac step_cases env a s Ht :=
  generalize (step_transition env a s); generalize (step env a s);
  intros ? Ht; destruct Ht.

(** ** The shape of the records *)

Lemma well_formed_terminal env fileId start now rnd head token sign stored :
  well_formed (terminalRecord env fileId start now rnd head token sign stored).
Proof.
  unfold terminalRecord, well_formed. destruct (_ && _); cbn; eauto 6.
Qed.

Lemma shape_inv_set jobId r s :
  shape_inv s → well_formed r → shape_inv (setJobStatus jobId r s).
Proof.
  intros [Hw Hj Hf Hc] Hr. split; cbn; try done.
  - intros j r' Hin. apply elem_of_cons in Hin as [Heq|Hin]; [|eauto].
    by injection Heq as -> ->.
  - intros j r' Hl. destruct (decide (jobId = j)) as [->|Hne].
    + rewrite lookup_insert_eq in Hl. by injection Hl as <-.
    + rewrite lookup_insert_ne in Hl by done. eauto.
Qed.

Lemma shape_inv_set_exec i e' s :
  shape_inv s →
  (∀ r, Some r ∈ e_inflight e' → well_formed r) →
  0 <= e_progress e' <= 90 →
  shape_inv (set_exec i e' s).
Proof.
  intros [Hw Hj Hf Hc] He Hp. split; cbn; try done.
  - intros e r [->|Hin]%elem_of_insert_inv; eauto.
  - intros e [->|Hin]%elem_of_insert_inv; eauto.
Qed.

Lemma shape_inv_start jobId fileId now s :
  shape_inv s → shape_inv (processDownloadJob_start jobId fileId now s).
Proof.
  intros Hs. unfold processDownloadJob_start.
  set (r := mkJobResult _ _ _ _ _ _ _ _ _).
  assert (Hr : well_formed r) by (unfold well_formed; cbn; split_and!; (done || lia)).
  destruct (shape_inv_set jobId r s Hs Hr) as [Hw Hj Hf Hc].
  split; cbn; try done.
  - intros e r' [Hin|He%list_elem_of_singleton]%elem_of_app; [eauto|].
    subst e. cbn. by intros ?%elem_of_nil.
  - intros e [Hin|He%list_elem_of_singleton]%elem_of_app; [eauto|].
    subst e. cbn. lia.
Qed.

Lemma shape_inv_step env a s : shape_inv s → shape_inv (step env a s).
Proof.
  intros Hs. step_cases env a s Ht; try done.
  - assert (H1 : shape_inv (setJobStatus uuid (initialRecord f now) s)).
    { apply shape_inv_set; [done|]. unfold well_formed. by cbn. }
    destruct H1. by split.
  - apply shape_inv_start, shape_inv_set; [done|]. unfold well_formed. by cbn.
  - apply shape_inv_start. destruct Hs. by split.
  - by apply shape_inv_start.
  - assert (He : e ∈ execs s) by by eapply list_elem_of_lookup_2.
    pose proof (shape_counter s Hs e He).
    apply shape_inv_set_exec; cbn; [done| |lia].
    intros r [Hin|Hr%list_elem_of_singleton]%elem_of_app.
    + by eapply shape_inflight.
    + eapply shape_jobs; [done|]. symmetry. exact Hr.
  - assert (He : e ∈ execs s) by by eapply list_elem_of_lookup_2.
    apply shape_inv_set_exec; cbn; [done| |by eapply shape_counter].
    intros r Hr. eapply shape_inflight; [done|done|]. rewrite H0. by right.
  - assert (He : e ∈ execs s) by by eapply list_elem_of_lookup_2.
    pose proof (shape_counter s Hs e He) as Hp.
    assert (Hc : well_formed c).
    { eapply shape_inflight; [done|done|]. rewrite H0. by left. }
    apply shape_inv_set.
    + apply shape_inv_set_exec; cbn; [done| |done].
      intros r Hr. eapply shape_inflight; [done|done|]. rewrite H0. by right.
    + unfold well_formed in *. rewrite H1 in Hc. cbn. tauto.
  - assert (He : e ∈ execs s) by by eapply list_elem_of_lookup_2.
    apply shape_inv_set_exec; cbn; [done| |by eapply shape_counter].
    intros r Hr. by eapply shape_inflight.
  - assert (He : e ∈ execs s) by by eapply list_elem_of_lookup_2.
    apply shape_inv_set; [|apply well_formed_terminal].
    apply shape_inv_set_exec; cbn; [done| |by eapply shape_counter].
    by intros r ?%elem_of_nil.
  - destruct Hs as [Hw Hj Hf Hc]. split; cbn; try done.
    intros j' r [_ Hl]%lookup_delete_Some. eauto.
Qed.

Lemma shape_inv_reachable env redelivery s :
  reachable env redelivery s → shape_inv s.
Proof.
  induction 1 as [|s a _ IH _]; [|by apply shape_inv_step].
  split; cbn.
  - by intros j r ?%elem_of_nil.
  - intros j r. by rewrite lookup_empty.
  - by intros e r ?%elem_of_nil.
  - by intros e ?%elem_of_nil.
Qed.

(** X1. In every reachable state, redeliveries included, a record that
    was written or is stored has the fields of its status: progress 0 and
    no URL, size or elapsed time when "queued"; progress between 0 and 90
    and no URL, size or elapsed time when "processing"; progress 100 and
    an elapsed time, the one its message quotes, when terminal; and no URL
    or size when "failed". *)
Theorem records_well_formed env redelivery s j r :
  reachable env redelivery s →
  (j, r) ∈ writes s ∨ jobs s !! j = Some r →
  well_formed r.
Proof.
  intros Hs%shape_inv_reachable [Hw|Hj];
    [by eapply shape_writes|by eapply shape_jobs].
Qed.

Lemma records_well_formed_witness : well_formed served_record.
Proof.
  apply (records_well_formed mock_memory false served_state "job-1").
  - exact served_state_reachable.
  - right. vm_compute. reflexivity.
Defined.

(** ** The store holds the newest writes *)

Lemma store_coherent_same env s s' :
  jobs s' = jobs s → writes s' = writes s →
  store_coherent env s → store_coherent env s'.
Proof. unfold store_coherent. by intros -> ->. Qed.

Lemma store_coherent_set env jobId r s :
  store_coherent env s → store_coherent env (setJobStatus jobId r s).
Proof.
  intros [H1 H2]. split; cbn.
  - intros j r'. destruct (decide (jobId = j)) as [->|Hne].
    + by rewrite lookup_insert_eq.
    + rewrite lookup_insert_ne by done. eauto.
  - intros Hr j. destruct (decide (jobId = j)) as [->|Hne].
    + by rewrite lookup_insert_eq.
    + rewrite lookup_insert_ne by done. eauto.
Qed.

Lemma store_coherent_step env a s :
  store_coherent env s → store_coherent env (step env a s).
Proof.
  intros Hs. step_cases env a s Ht; try done;
    try (eapply store_coherent_same; [| |by apply store_coherent_set];
         done);
    try (by eapply store_coherent_same; [| |exact Hs]).
  - eapply store_coherent_same;
      [| |apply store_coherent_set, store_coherent_set, Hs]; done.
  - destruct Hs as [H1 H2]. split; cbn; [|congruence].
    intros j' r [_ Hl]%lookup_delete_Some. eauto.
Qed.

Lemma store_coherent_reachable env redelivery s :
  reachable env redelivery s → store_coherent env s.
Proof.
  induction 1 as [|s a _ IH _]; [|by apply store_coherent_step].
  split; cbn; [|done]. intros j r. by rewrite lookup_empty.
Qed.

(** X2. In every reachable state the record stored for a job is the
    newest write made for that job; without Redis the converse holds as
    well: the in-memory store still holds the newest record of every job
    that was ever written, and nothing is ever evicted from it. *)
Theorem store_holds_newest_write env redelivery s :
  reachable env redelivery s →
  (∀ j r, jobs s !! j = Some r → last_write j (writes s) = Some r)
  ∧ (REDIS_URL env = false → ∀ j, jobs s !! j = last_write j (writes s)).
Proof. apply store_coherent_reachable. Qed.

Lemma store_holds_newest_write_witness :
  (∀ j r, jobs served_state !! j = Some r →
          last_write j (writes served_state) = Some r)
  ∧ (REDIS_URL mock_memory = false →
     ∀ j, jobs served_state !! j = last_write j (writes served_state)).
Proof.
  apply (store_holds_newest_write mock_memory false served_state).
  exact served_state_reachable.
Defined.

(** ** Jobs do not touch each other's records *)

(** X3. A step leaves the stored record of every job other than its
    target as it was: a submission, a delivery, a tick, a terminal write
    or an expiry changes the record of one job only. *)
Theorem other_jobs_untouched env a s k :
  target a s ≠ Some k →
  jobs (step env a s) !! k = jobs s !! k.
Proof.
  step_cases env a s Ht; cbn; intros Hk; try done.
  - apply lookup_insert_ne. congruence.
  - rewrite !lookup_insert_ne; [done|congruence..].
  - rewrite H0 in Hk. cbn in Hk. apply lookup_insert_ne. congruence.
  - rewrite H0 in Hk. cbn in Hk. apply lookup_insert_ne. congruence.
  - rewrite H in Hk. cbn in Hk. apply lookup_insert_ne. congruence.
  - rewrite H in Hk. cbn in Hk. apply lookup_insert_ne. congruence.
  - apply lookup_delete_ne. congruence.
Qed.

Lemma other_jobs_untouched_witness :
  jobs (step mock_memory (Submit [number_of_Z 70007] "job-2" 9100 9100)
          served_state) !! "job-1"
  = jobs served_state !! "job-1".
Proof.
  apply (other_jobs_untouched mock_memory
           (Submit [number_of_Z 70007] "job-2" 9100 9100) served_state).
  cbn. congruence.
Defined.

(** ** The file identifier of a job is fixed *)

Lemma elem_of_fst_inv (tr : list (string * JobResult)) j :
  j ∈ tr.*1 → ∃ r, (j, r) ∈ tr.
Proof.
  intros ([j' r] & Hj & Hin)%list_elem_of_fmap. cbn in Hj. subst j'. eauto.
Qed.

(** A write for a job that has been written before, with the same file. *)
Lemma file_inv_set_known jobId r r0 s :
  file_inv s → (jobId, r0) ∈ writes s → file_id r0 = file_id r →
  file_inv (setJobStatus jobId r s).
Proof.
  intros [Hw Hq He Hf Hj Hqk Hek] H0 Heq. split; cbn.
  - intros j r1 r2 [E1|H1]%elem_of_cons [E2|H2]%elem_of_cons.
    + congruence.
    + injection E1 as -> ->. rewrite <- Heq. eauto.
    + injection E2 as -> ->. rewrite <- Heq. eauto.
    + eauto.
  - intros j f r1 Hjf [E1|H1]%elem_of_cons; [|eauto].
    injection E1 as -> ->. rewrite <- Heq. eauto.
  - intros e r1 Hin [E1|H1]%elem_of_cons; [|eauto].
    injection E1 as Hjj ->. rewrite <- Heq. apply He; [done|].
    by rewrite Hjj.
  - intros e r1 Hin Hr. right. eauto.
  - intros j r1. destruct (decide (jobId = j)) as [->|Hne].
    + rewrite lookup_insert_eq. intros [= <-]. by left.
    + rewrite lookup_insert_ne by done. intros Hl. right. eauto.
  - intros j f Hjf. right. eauto.
  - intros e Hin. right. eauto.
Qed.

(** The first write for a fresh job. *)
Lemma file_inv_set_fresh jobId r s :
  file_inv s → fresh jobId s → file_inv (setJobStatus jobId r s).
Proof.
  intros [Hw Hq He Hf Hj Hqk Hek] Hfr.
  assert (Hnw : ∀ r', (jobId, r') ∉ writes s).
  { intros r' Hr. apply Hfr. by eapply elem_of_fst_writes. }
  split; cbn.
  - intros j r1 r2 [E1|H1]%elem_of_cons [E2|H2]%elem_of_cons.
    + congruence.
    + injection E1 as -> ->. by destruct (Hnw r2).
    + injection E2 as -> ->. by destruct (Hnw r1).
    + eauto.
  - intros j f r1 Hjf [E1|H1]%elem_of_cons; [|eauto].
    injection E1 as -> ->. destruct Hfr. eauto.
  - intros e r1 Hin [E1|H1]%elem_of_cons; [|eauto].
    injection E1 as Hjj ->. destruct Hfr. rewrite <- Hjj. eauto.
  - intros e r1 Hin Hr. right. eauto.
  - intros j r1. destruct (decide (jobId = j)) as [->|Hne].
    + rewrite lookup_insert_eq. intros [= <-]. by left.
    + rewrite lookup_insert_ne by done. intros Hl. right. eauto.
  - intros j f Hjf. right. eauto.
  - intros e Hin. right. eauto.
Qed.

Lemma file_inv_set_exec i e e' s :
  file_inv s → execs s !! i = Some e →
  e_jobId e' = e_jobId e → e_fileId e' = e_fileId e →
  (∀ r, Some r ∈ e_inflight e' → (e_jobId e, r) ∈ writes s) →
  file_inv (set_exec i e' s).
Proof.
  intros [Hw Hq He Hf Hj Hqk Hek] Hi Hjj Hff Hin.
  assert (Hel : e ∈ execs s) by by eapply list_elem_of_lookup_2.
  split; cbn; try done.
  - intros e2 r [->|H2]%elem_of_insert_inv; [|eauto].
    rewrite Hjj, Hff. eauto.
  - intros e2 r [->|H2]%elem_of_insert_inv; [|eauto].
    rewrite Hjj. eauto.
  - intros e2 [->|H2]%elem_of_insert_inv; [|eauto]. rewrite Hjj. eauto.
Qed.

(** A new execution for a job whose writes carry its file. *)
Lemma file_inv_push e s :
  file_inv s → e_inflight e = [] →
  e_jobId e ∈ (writes s).*1 →
  (∀ r, (e_jobId e, r) ∈ writes s → file_id r = e_fileId e) →
  file_inv (mkSys (jobs s) (queue s) (execs s ++ [e]) (writes s)).
Proof.
  intros [Hw Hq He Hf Hj Hqk Hek] Hin Hk Hfile. split; cbn; try done.
  - intros e2 r [H2|H2%list_elem_of_singleton]%elem_of_app; [eauto|].
    subst e2. eauto.
  - intros e2 r [H2|H2%list_elem_of_singleton]%elem_of_app; [eauto|].
    subst e2. rewrite Hin. by intros ?%elem_of_nil.
  - intros e2 [H2|H2%list_elem_of_singleton]%elem_of_app; [eauto|].
    by subst e2.
Qed.

Lemma file_inv_queue q s :
  file_inv s → (∀ it, it ∈ q → it ∈ queue s) →
  file_inv (mkSys (jobs s) q (execs s) (writes s)).
Proof. intros [Hw Hq He Hf Hj Hqk Hek] Hsub. split; cbn; eauto. Qed.

Lemma file_inv_start jobId fileId now s :
  file_inv s →
  (fresh jobId s
   ∨ ∃ r0, (jobId, r0) ∈ writes s ∧ file_id r0 = fileId) →
  (∀ r, (jobId, r) ∈ writes s → file_id r = fileId) →
  file_inv (processDownloadJob_start jobId fileId now s).
Proof.
  intros Hs Hcase Hall. unfold processDownloadJob_start.
  set (r := mkJobResult _ _ _ _ _ _ _ _ _).
  assert (H1 : file_inv (setJobStatus jobId r s)).
  { destruct Hcase as [Hfr|(r0 & Hr0 & Hf0)].
    - by apply file_inv_set_fresh.
    - by apply (file_inv_set_known jobId r r0). }
  apply (file_inv_push (mkExec jobId fileId now 0 Sleeping [])
           (setJobStatus jobId r s)); [done|done| |].
  - cbn. by left.
  - cbn. intros r' [Heq|Hin]%elem_of_cons; [|eauto]. by injection Heq as ->.
Qed.

Lemma file_id_terminalRecord env fileId start now rnd head token sign stored :
  file_id (terminalRecord env fileId start now rnd head token sign stored)
  = fileId.
Proof. unfold terminalRecord. by destruct (_ && _). Qed.

Lemma file_inv_step env redelivery a s :
  admissible redelivery a s → file_inv s → file_inv (step env a s).
Proof.
  intros Hadm Hs. step_cases env a s Ht; try done.
  - (* submission, queued *)
    cbn in Hadm.
    pose proof (file_inv_set_fresh uuid (initialRecord f now) s Hs Hadm) as H1.
    destruct H1 as [Hw Hq He Hf Hj Hqk Hek]. split; cbn; try done.
    + intros j f' r [Hjf|Hjf%list_elem_of_singleton]%elem_of_app Hr;
        [by eapply Hq|].
      injection Hjf as -> ->. cbn in Hr.
      apply elem_of_cons in Hr as [Heq|Hr]; [by injection Heq as ->|].
      destruct Hadm. by eapply elem_of_fst_writes.
    + intros j f' [Hjf|Hjf%list_elem_of_singleton]%elem_of_app; [eauto|].
      injection Hjf as -> ->. by left.
  - (* submission, started at once *)
    cbn in Hadm. apply file_inv_start.
    + by apply file_inv_set_fresh.
    + right. eexists. split; [by left|done].
    + cbn. intros r [Heq|Hr]%elem_of_cons; [by injection Heq as ->|].
      destruct Hadm. by eapply elem_of_fst_writes.
  - (* delivery *)
    assert (Hjf : (j, f) ∈ queue s) by (rewrite H0; by left).
    destruct (elem_of_fst_inv _ _ (file_queue_known s Hs j f Hjf))
      as [r0 Hr0].
    apply file_inv_start.
    + apply file_inv_queue; [done|]. intros it Hit. rewrite H0. by right.
    + right. exists r0. split; [done|]. by eapply file_queue.
    + cbn. intros r Hr. by eapply file_queue.
  - (* redelivery *)
    assert (He : e ∈ execs s) by by eapply list_elem_of_lookup_2.
    destruct (elem_of_fst_inv _ _ (file_exec_known s Hs e He)) as [r0 Hr0].
    apply file_inv_start; [done| |].
    + right. exists r0. split; [done|]. by eapply file_exec.
    + intros r Hr. by eapply file_exec.
  - (* the timer callback *)
    assert (He : e ∈ execs s) by by eapply list_elem_of_lookup_2.
    eapply file_inv_set_exec; [done|done|done|done|]. cbn.
    intros r [Hin|Hr%list_elem_of_singleton]%elem_of_app.
    + by eapply file_inflight.
    + eapply file_jobs; [done|]. symmetry. exact Hr.
  - (* a tick that is discarded *)
    assert (He : e ∈ execs s) by by eapply list_elem_of_lookup_2.
    eapply file_inv_set_exec; [done|done|done|done|]. cbn.
    intros r Hr. eapply file_inflight; [done|done|]. rewrite H0. by right.
  - (* a tick that writes *)
    assert (He : e ∈ execs s) by by eapply list_elem_of_lookup_2.
    assert (Hc : (e_jobId e, c) ∈ writes s).
    { eapply file_inflight; [done|done|]. rewrite H0. by left. }
    apply (file_inv_set_known _ _ c); [|done|done].
    eapply file_inv_set_exec; [done|done|done|done|]. cbn.
    intros r Hr. eapply file_inflight; [done|done|]. rewrite H0. by right.
  - (* the end of the sleep *)
    assert (He : e ∈ execs s) by by eapply list_elem_of_lookup_2.
    eapply file_inv_set_exec; [done|done|done|done|]. cbn.
    intros r Hr. by eapply file_inflight.
  - (* the terminal write *)
    assert (He : e ∈ execs s) by by eapply list_elem_of_lookup_2.
    destruct (elem_of_fst_inv _ _ (file_exec_known s Hs e He)) as [r0 Hr0].
    apply (file_inv_set_known _ _ r0); [|done|].
    + eapply file_inv_set_exec; [done|done|done|done|]. cbn.
      by intros r ?%elem_of_nil.
    + rewrite file_id_terminalRecord. by eapply file_exec.
  - (* expiry *)
    destruct Hs as [Hw Hq He Hf Hj Hqk Hek]. split; cbn; try done.
    intros j' r [_ Hl]%lookup_delete_Some. eauto.
Qed.

Lemma file_inv_reachable env redelivery s :
  reachable env redelivery s → file_inv s.
Proof.
  induction 1 as [|s a _ IH Ha]; [|by eapply file_inv_step].
  split; cbn; intros *; by rewrite ?elem_of_nil.
Qed.

(** X4. The file identifier of a job never changes: in every reachable
    state, redeliveries included, all the records written for a job, and
    the record stored for it, carry the same [file_id]. *)
Theorem file_id_fixed env redelivery s j r r' :
  reachable env redelivery s →
  (j, r) ∈ writes s →
  (j, r') ∈ writes s ∨ jobs s !! j = Some r' →
  file_id r = file_id r'.
Proof.
  intros Hs%file_inv_reachable Hr [Hr'|Hj].
  - by eapply file_writes.
  - eapply file_writes; [done|done|]. by eapply file_jobs.
Qed.

Lemma file_id_fixed_witness :
  file_id submitted_record = file_id served_record.
Proof.
  apply (file_id_fixed mock_memory false served_state "job-1").
  - exact served_state_reachable.
  - apply (list_elem_of_lookup_2 _ 4%nat). vm_compute. reflexivity.
  - right. vm_compute. reflexivity.
Defined.

(** ** One terminal write, and nothing after it *)

Lemma rank_not_terminal st : rank st <= 1 → terminal st = false.
Proof. destruct st; cbn; (done || lia). Qed.

Lemma terminal_is_final_step env a s :
  admissible false a s → good s →
  terminal_is_final (writes s) → terminal_is_final (writes (step env a s)).
Proof.
  intros Hadm [Hd _] Hs. step_cases env a s Ht; try done.
  - cbn in *. split; [|done]. intros r' Hr. destruct Hadm.
    by eapply elem_of_fst_writes.
  - cbn in *. split_and!; [| |done].
    + intros r' [Heq|Hr]%elem_of_cons; [by injection Heq as ->|].
      destruct Hadm. by eapply elem_of_fst_writes.
    + intros r' Hr. destruct Hadm. by eapply elem_of_fst_writes.
  - cbn. split; [|done]. intros r' Hr.
    assert (Hjf : (j, f) ∈ queue s) by (rewrite H0; by left).
    by destruct (inv_queue_rank s Hd j f r' Hjf Hr) as [-> _].
  - assert (He : e ∈ execs s) by by eapply list_elem_of_lookup_2.
    assert (Ha : active e).
    { intros Hph. by rewrite (inv_exec_finished s Hd e He Hph) in H0. }
    cbn. split; [|done]. intros r' Hr. apply rank_not_terminal.
    by destruct (inv_exec_bound s Hd e r' He Ha Hr).
  - assert (He : e ∈ execs s) by by eapply list_elem_of_lookup_2.
    assert (Ha : active e) by (unfold active; by rewrite H0).
    cbn. split; [|done]. intros r' Hr. apply rank_not_terminal.
    by destruct (inv_exec_bound s Hd e r' He Ha Hr).
Qed.

Lemma terminal_is_final_reachable env s :
  reachable env false s → terminal_is_final (writes s).
Proof.
  induction 1 as [|s a Hs IH Ha]; [done|].
  apply terminal_is_final_step; [done| |done]. by eapply good_reachable.
Qed.

Lemma terminal_is_final_app newer j r older :
  terminal_is_final (newer ++ (j, r) :: older) →
  terminal (status r) = true →
  (∀ r', (j, r') ∉ newer)
  ∧ (∀ r', (j, r') ∈ older → terminal (status r') = false).
Proof.
  induction newer as [|[j0 r0] newer IH]; cbn.
  - intros [H _] _. split; [|done]. by intros r' ?%elem_of_nil.
  - intros [H0 Hrest] Ht. destruct (IH Hrest Ht) as [IH1 IH2].
    split; [|done]. intros r' [Heq|Hin]%elem_of_cons; [|by eapply IH1].
    injection Heq as E1 E2. subst j0 r0.
    assert (Hin : (j, r) ∈ newer ++ (j, r) :: older).
    { apply elem_of_app. right. by left. }
    specialize (H0 r Hin). congruence.
Qed.

(** X5. When each work item is delivered once, a job has at most one
    terminal write and nothing is written for it afterwards: wherever a
    terminal write stands in the trace, no newer write is for the same
    job, and every older write of the job is non-terminal. *)
Theorem terminal_write_is_last env s newer j r older :
  reachable env false s →
  writes s = newer ++ (j, r) :: older →
  terminal (status r) = true →
  (∀ r', (j, r') ∉ newer)
  ∧ (∀ r', (j, r') ∈ older → terminal (status r') = false).
Proof.
  intros Hs Hw Ht. apply terminal_is_final_reachable in Hs.
  rewrite Hw in Hs. by apply (terminal_is_final_app newer j r older).
Qed.

Lemma terminal_write_is_last_witness :
  (∀ r' : JobResult, ("job-1", r') ∉ @nil (string * JobResult))
  ∧ (∀ r', ("job-1", r') ∈ tail (writes served_state) →
           terminal (status r') = false).
Proof.
  apply (terminal_write_is_last mock_memory served_state [] "job-1"
           served_record (tail (writes served_state))).
  - exact served_state_reachable.
  - vm_compute. reflexivity.
  - reflexivity.
Defined.

(** ** Submission followed by a status read *)

(** X6. Right after a valid submission, a status read of the returned
    identifier finds a record, whatever the store held before: it is for
    the first identifier of the batch, has progress 0 and no URL, and
    its status is "queued" with Redis and already "processing" without. *)
Theorem submitted_job_is_visible env x more fileId uuid now now' s :
  integer_of x = Some fileId →
  Forall in_range (x :: more) →
  (length (x :: more) ≤ 1000)%nat →
  let s' := (downloadInitiate env (x :: more) uuid now now' s).2 in
  ∃ r, jobStatus uuid s' = (StatusOf uuid r, s')
       ∧ file_id r = fileId ∧ progress r = 0 ∧ downloadUrl r = None
       ∧ status r = (if REDIS_URL env then queued else processing).
Proof.
  intros Hx Hall Hlen s'.
  destruct (schema_accepts (x :: more) Hall) as (ids & Hs & Hf).
  { simpl in *. lia. }
  inversion Hf as [|? z ? zs Hz Hzs]; subst.
  assert (z = fileId) by congruence. subst z.
  subst s'. unfold downloadInitiate. rewrite Hs.
  unfold downloadInitiateHandler, jobStatus, getJobStatus. cbn [snd].
  destruct (REDIS_URL env); cbn; rewrite lookup_insert_eq; eauto 10.
Qed.

Lemma submitted_job_is_visible_witness :
  let s' := (downloadInitiate mock_memory
               [number_of_Z 70007; number_of_Z 70008] "job-2" 9100 9101
               served_state).2 in
  ∃ r, jobStatus "job-2" s' = (StatusOf "job-2" r, s')
       ∧ file_id r = 70007 ∧ progress r = 0 ∧ downloadUrl r = None
       ∧ status r = (if REDIS_URL mock_memory then queued else processing).
Proof.
  apply (submitted_job_is_visible mock_memory (number_of_Z 70007)
           [number_of_Z 70008] 70007 "job-2" 9100 9101 served_state).
  - reflexivity.
  - apply Forall_cons. split; [exists 70007; split; [reflexivity|lia]|].
    apply Forall_cons. split; [exists 70008; split; [reflexivity|lia]|].
    apply Forall_nil_2.
  - simpl. lia.
Defined.

(** ** The availability prober and the synchronous routes *)

(** X7. The prober's answer is one of two shapes: available with the
    normalised key of the file, or unavailable with neither key nor size.
    Without a bucket the file is available exactly when 7 divides its
    identifier, and the size is then the random draw plus 1000; with a
    bucket it is available exactly when the HEAD request did not throw. *)
Theorem prober_result_shape env fileId rnd head :
  let r := checkS3Availability env fileId rnd head in
  (if available r
   then s3Key r = Some (sanitizeS3Key (number_of_Z fileId))
   else s3Key r = None ∧ s3size r = None)
  ∧ (if mockMode env
     then (available r = true ↔ (7 | fileId))
          ∧ (available r = true → s3size r = Some (rnd + 1000))
     else available r = bool_decide (is_Some head)
          ∧ (∀ cl, head = Some cl → s3size r = cl)).
Proof.
  unfold checkS3Availability. destruct (mockMode env).
  - destruct (Z.rem fileId 7 =? 0) eqn:Hrem; cbn.
    + split; [done|]. split; [|done]. split; [|done].
      intros _. apply Z.rem_divide; [done|lia].
    + split; [done|]. split; [|done]. split; [done|].
      intros Hd. apply Z.rem_divide in Hd; [|done]. lia.
  - destruct head as [cl|]; cbn.
    + split; [done|]. split; [done|]. by intros ? [= ->].
    + split; [done|]. split; [done|]. done.
Qed.

(** X8. For one configuration, one file and one outcome of the HEAD
    request, the check route, the start route and the queued job agree:
    the job ends "completed" and the start route answers "completed"
    exactly when the check route reports the file available, and "failed"
    otherwise, whatever the clock, the random draw, the token and the
    signer. *)
Theorem routes_agree_on_availability env sentry_test fileId h
    rnd0 rnd1 rnd2 startTime1 now1 token1 startTime2 now2 token2 sign
    stored body :
  downloadCheckHandler env sentry_test fileId rnd0 h = inr body →
  let verdict := if available (check_result body)
                 then completed else failed in
  start_status (downloadStart env fileId startTime1 now1 rnd1 h token1)
    = verdict
  ∧ status (terminalRecord env fileId startTime2 now2 rnd2 (head_of h)
              token2 sign stored)
    = verdict.
Proof.
  unfold downloadCheckHandler. case_bool_decide; [done|].
  intros [= <-]. cbn [check_result].
  unfold downloadStart, terminalRecord, checkS3Availability.
  destruct (mockMode env).
  - destruct (Z.rem fileId 7 =? 0); cbn [available s3Key];
      by rewrite ?sanitizeS3Key_truthy.
  - destruct (head_of h); cbn [available s3Key];
      by rewrite ?sanitizeS3Key_truthy.
Qed.

Lemma routes_agree_on_availability_witness :
  let body := mkCheckResponse 70000
                (mkS3Result true (Some "downloads/70000.zip") (Some 1005)) in
  start_status (downloadStart mock_memory 70000 0 9000 7 (HeadSent None)
                  "t1")
    = completed
  ∧ status (terminalRecord mock_memory 70000 1001 9001 8
              (head_of (HeadSent None)) "t2" None None)
    = completed.
Proof.
  apply (routes_agree_on_availability mock_memory None 70000 (HeadSent None)
           5 7 8 0 9000 "t1" 1001 9001 "t2" None None
           (mkCheckResponse 70000
              (mkS3Result true (Some "downloads/70000.zip") (Some 1005)))).
  vm_compute. reflexivity.
Defined.

(** X9. The start route hands out a URL exactly when it answers
    "completed", in every configuration: the URL is built on
    storage.example.com from the normalised key and the token, also when
    a bucket is configured, and a failed answer carries neither URL nor
    size. *)
Theorem start_url_iff_completed env fileId startTime now rnd h token :
  let r := downloadStart env fileId startTime now rnd h token in
  match start_status r with
  | completed =>
      start_downloadUrl r
      = Some ("https://storage.example.com/"
              +:+ sanitizeS3Key (number_of_Z fileId)
              +:+ "?token=" +:+ token)
  | failed => start_downloadUrl r = None ∧ start_size r = None
  | queued | processing => False
  end
  ∧ start_file_id r = fileId
  ∧ start_processingTimeMs r = now - startTime.
Proof.
  unfold downloadStart, checkS3Availability. destruct (mockMode env).
  - by destruct (Z.rem fileId 7 =? 0).
  - by destruct (head_of h).
Qed.

(** X10. Without a bucket the start route and the queued job give the
    same outcome for the same file, random draw and token: the same
    status, URL and size. *)
Theorem start_matches_job_in_mock env fileId startTime1 now1 startTime2 now2
    rnd h head token sign stored :
  mockMode env = true →
  let r := downloadStart env fileId startTime1 now1 rnd h token in
  let j := terminalRecord env fileId startTime2 now2 rnd head token sign
             stored in
  start_status r = status j
  ∧ start_downloadUrl r = downloadUrl j
  ∧ start_size r = size j.
Proof.
  intros Hmock.
  unfold downloadStart, terminalRecord, checkS3Availability,
    generatePresignedUrl. rewrite Hmock.
  destruct (Z.rem fileId 7 =? 0); cbn [available s3Key s3size];
    by rewrite ?sanitizeS3Key_truthy.
Qed.

Lemma start_matches_job_in_mock_witness :
  let r := downloadStart mock_redis 70000 0 9000 5 (HeadThrew NotAnError)
             "t" in
  let j := terminalRecord mock_redis 70000 1001 9001 5 None "t" None None in
  start_status r = status j
  ∧ start_downloadUrl r = downloadUrl j
  ∧ start_size r = size j.
Proof.
  apply (start_matches_job_in_mock mock_redis 70000 0 9000 1001 9001 5
           (HeadThrew NotAnError) None "t" None None).
  reflexivity.
Defined.

(** With a bucket the two differ: the start route still hands out the
    storage.example.com URL where the job stores what the signer gave. *)
Example start_differs_from_job_with_bucket :
  let r := downloadStart bucket_redis 70001 0 9000 5 (HeadSent (Some 12))
             "t" in
  let j := terminalRecord bucket_redis 70001 0 9000 5 (Some (Some 12)) "t"
             (Some "https://signed") None in
  start_status r = status j
  ∧ start_downloadUrl r
    = Some "https://storage.example.com/downloads/70001.zip?token=t"
  ∧ downloadUrl j = Some "https://signed".
Proof. vm_compute. done. Qed.

(** X11. The health route answers 200 "healthy" with storage "ok", or
    503 "unhealthy" with storage "error"; it answers 503 exactly when a
    bucket is configured and the HEAD request threw something other than
    an Error named NotFound. *)
Theorem health_unhealthy_iff env h :
  let r := healthRoute env h in
  (r = mkHealthResponse "healthy" "ok" 200
   ∨ r = mkHealthResponse "unhealthy" "error" 503)
  ∧ (health_code r = 503
     ↔ mockMode env = false
       ∧ ∃ err, h = HeadThrew err ∧ err ≠ ErrorNamed "NotFound").
Proof.
  unfold healthRoute, checkS3Health. destruct (mockMode env); cbn.
  - split; [by left|]. split; [done|]. by intros [? _].
  - destruct h as [cl|[name|]]; cbn.
    + split; [by left|]. split; [done|]. by intros [_ (? & ? & _)].
    + destruct (String.eqb_spec name "NotFound") as [->|Hne]; cbn.
      * split; [by left|]. split; [done|].
        intros [_ (err & [= <-] & Hne)]. done.
      * split; [by right|]. split; [|done]. intros _. split; [done|].
        eexists. split; [done|]. congruence.
    + split; [by right|]. split; [|done]. intros _. split; [done|].
      by eexists.
Qed.

Lemma validFileId_bounds x z :
  validFileId x = Some z → 10000 <= z <= 100000000.
Proof.
  unfold validFileId. destruct (integer_of x) as [z'|]; [|done].
  destruct (_ && _) eqn:Hb; [|done]. intros [= <-].
  apply andb_true_iff in Hb as [H1%Z.leb_le H2%Z.leb_le]. lia.
Qed.

(** X12. With [sentry_test=true] the check route answers 500 for every
    valid file, whatever the storage would have said, and the answer
    carries the request's identifier. Outside development the message is
    the fixed one; in development it names the file in decimal digits. *)
Theorem sentry_test_always_fails node_env env header uuid x z rnd h :
  validFileId x = Some z →
  ∃ body,
    downloadCheck node_env env header uuid (Some "true") x rnd h
    = (requestId header uuid, CheckError body)
    ∧ error_code body = 500
    ∧ error_requestId body = Some (requestId header uuid)
    ∧ error_message body
      = match node_env with
        | development =>
            "Sentry test error triggered for file_id="
            +:+ decimal (Z.to_N z) +:+ " - This should appear in Sentry!"
        | production | test => "An unexpected error occurred"
        end.
Proof.
  intros Hx. unfold downloadCheck. rewrite Hx.
  unfold downloadCheckHandler. rewrite bool_decide_eq_true_2 by done.
  eexists. split; [done|]. split; [done|]. split; [done|].
  destruct node_env; [|done..]. cbn [onError error_message].
  pose proof (validFileId_bounds x z Hx) as Hb.
  unfold integral_of_Z.
  destruct (z <? 0) eqn:Hneg; [apply Z.ltb_lt in Hneg; lia|].
  rewrite String_safe_integer.
  - by rewrite Zabs2N.abs_N_nonneg by lia.
  - assert (H53 : 100000000 < 2 ^ 53) by by vm_compute.
    apply N2Z.inj_lt. rewrite N2Z.inj_abs_N.
    change (Z.of_N (2 ^ 53)) with (2 ^ 53). lia.
Qed.

Lemma sentry_test_always_fails_witness :
  ∃ body,
    downloadCheck development mock_memory (Some "req-7") "uuid-1"
      (Some "true") (number_of_Z 70000) 5 (HeadSent None)
    = (requestId (Some "req-7") "uuid-1", CheckError body)
    ∧ error_code body = 500
    ∧ error_requestId body = Some (requestId (Some "req-7") "uuid-1")
    ∧ error_message body
      = "Sentry test error triggered for file_id="
        +:+ decimal (Z.to_N 70000) +:+ " - This should appear in Sentry!".
Proof.
  apply (sentry_test_always_fails development mock_memory (Some "req-7")
           "uuid-1" (number_of_Z 70000) 70000 5 (HeadSent None)).
  reflexivity.
Defined.

(** ** Time stamps under a clock that never goes back *)

Lemma stamped_mono T T' r : T <= T' → stamped T r → stamped T' r.
Proof. intros Hle (H1 & H2 & H3). split_and!; [done|lia|done]. Qed.

Lemma time_inv_mono T T' s : T <= T' → time_inv T s → time_inv T' s.
Proof.
  intros Hle [Hw Hj Hf Hs Ho]. split; try done.
  - intros j r Hin. eapply stamped_mono; eauto.
  - intros j r Hl. eapply stamped_mono; eauto.
  - intros e r He Hr. eapply stamped_mono; eauto.
  - intros e He. specialize (Hs e He). lia.
Qed.

(** A write stamped with a reading [T'] that is not before [T]. *)
Lemma time_inv_set T T' jobId r s :
  time_inv T s → T <= T' → updatedAt r = T' → stamped T' r →
  time_inv T' (setJobStatus jobId r s).
Proof.
  intros Hs Hle Hu Hr. pose proof (time_writes T s Hs) as Hold.
  destruct (time_inv_mono T T' s Hle Hs) as [Hw Hj Hf Hst Ho].
  split; cbn; try done.
  - intros j r' Hin. apply elem_of_cons in Hin as [Heq|Hin]; [|eauto].
    by injection Heq as -> ->.
  - intros j r' Hl. destruct (decide (jobId = j)) as [->|Hne].
    + rewrite lookup_insert_eq in Hl. by injection Hl as <-.
    + rewrite lookup_insert_ne in Hl by done. eauto.
  - split; [|done]. intros j' r' Hin.
    destruct (Hold j' r' Hin) as (_ & H2 & _). lia.
Qed.

Lemma time_inv_set_exec T i e' s :
  time_inv T s →
  (∀ r, Some r ∈ e_inflight e' → stamped T r) →
  e_startTime e' <= T →
  time_inv T (set_exec i e' s).
Proof.
  intros [Hw Hj Hf Hs Ho] He Hp. split; cbn; try done.
  - intros e r [->|Hin]%elem_of_insert_inv; eauto.
  - intros e [->|Hin]%elem_of_insert_inv; eauto.
Qed.

Lemma time_inv_start T T' jobId fileId s :
  time_inv T s → T <= T' →
  time_inv T' (processDownloadJob_start jobId fileId T' s).
Proof.
  intros Hs Hle. unfold processDownloadJob_start.
  set (r := mkJobResult _ _ _ _ _ _ _ _ _).
  assert (Hr : stamped T' r) by (unfold stamped; cbn; split_and!; (done || lia)).
  destruct (time_inv_set T T' jobId r s Hs Hle eq_refl Hr)
    as [Hw Hj Hf Hst Ho].
  split; cbn; try done.
  - intros e r' [Hin|He%list_elem_of_singleton]%elem_of_app; [eauto|].
    subst e. cbn. by intros ?%elem_of_nil.
  - intros e [Hin|He%list_elem_of_singleton]%elem_of_app; [eauto|].
    subst e. cbn. lia.
Qed.

Lemma stamped_terminal env T T' fileId start rnd head token sign stored :
  T <= T' → start <= T →
  (∀ r, stored = Some r → stamped T r) →
  let r := terminalRecord env fileId start T' rnd head token sign stored in
  updatedAt r = T' ∧ stamped T' r.
Proof.
  intros Hle Hst Hsto. unfold terminalRecord.
  assert (Hc : match stored with Some r => createdAt r | None => T' end <= T').
  { destruct stored as [r|]; [|lia].
    destruct (Hsto r eq_refl) as (? & ? & _). lia. }
  destruct (_ && _); cbn; (split; [done|]); unfold stamped; cbn;
    (split_and!; [done|lia|intros ms [= <-]; lia]).
Qed.

Lemma time_inv_step env T a s :
  time_inv T s → ordered T (readings a) →
  time_inv (List.last (readings a) T) (step env a s).
Proof.
  intros Hs Hord. step_cases env a s Ht.
  - eapply time_inv_mono; [|done].
    destruct a; cbn in *; lia.
  - cbn in *. destruct Hord as (H1 & H2 & _).
    assert (Hi : time_inv now (setJobStatus uuid (initialRecord f now) s)).
    { eapply time_inv_set; [done|done|done|].
      unfold stamped. cbn. split_and!; (done || lia). }
    apply (time_inv_mono now now'); [done|]. destruct Hi. by split.
  - cbn in *. destruct Hord as (H1 & H2 & _).
    apply (time_inv_start now); [|done].
    eapply time_inv_set; [done|done|done|].
    unfold stamped. cbn. split_and!; (done || lia).
  - cbn in *. destruct Hord as (H1 & _).
    apply (time_inv_start T); [|done]. destruct Hs. by split.
  - cbn in *. destruct Hord as (H1 & _). by apply (time_inv_start T).
  - cbn. assert (He : e ∈ execs s) by by eapply list_elem_of_lookup_2.
    apply time_inv_set_exec; cbn; [done| |by eapply time_start].
    intros r [Hin|Hr%list_elem_of_singleton]%elem_of_app.
    + by eapply time_inflight.
    + eapply time_jobs; [done|]. symmetry. exact Hr.
  - cbn in *. destruct Hord as (H2 & _).
    assert (He : e ∈ execs s) by by eapply list_elem_of_lookup_2.
    apply (time_inv_mono T); [done|].
    apply time_inv_set_exec; cbn; [done| |by eapply time_start].
    intros r Hr. eapply time_inflight; [done|done|]. rewrite H0. by right.
  - cbn in *. destruct Hord as (H2 & _).
    assert (He : e ∈ execs s) by by eapply list_elem_of_lookup_2.
    assert (Hc : stamped T c).
    { eapply time_inflight; [done|done|]. rewrite H0. by left. }
    apply (time_inv_set T); [|done|done|].
    + apply time_inv_set_exec; cbn; [done| |by eapply time_start].
      intros r Hr. eapply time_inflight; [done|done|]. rewrite H0. by right.
    + destruct Hc as (Hc1 & Hc2 & Hc3). unfold stamped. cbn.
      split_and!; [lia|lia|done].
  - cbn. assert (He : e ∈ execs s) by by eapply list_elem_of_lookup_2.
    apply time_inv_set_exec; cbn; [done| |by eapply time_start].
    intros r Hr. by eapply time_inflight.
  - cbn in *. destruct Hord as (H2 & _).
    assert (He : e ∈ execs s) by by eapply list_elem_of_lookup_2.
    destruct (stamped_terminal env T now (e_fileId e) (e_startTime e) rnd head
                token sign (getJobStatus (e_jobId e) s)) as [Hu Hr];
      [done|by eapply time_start| |].
    { intros r Hr. by eapply time_jobs. }
    apply (time_inv_set T); [|done|done|done].
    apply time_inv_set_exec; cbn; [done| |by eapply time_start].
    by intros r ?%elem_of_nil.
  - cbn. destruct Hs as [Hw Hj Hf Hst Ho]. split; cbn; try done.
    intros j' r [_ Hl]%lookup_delete_Some. eauto.
Qed.

Lemma time_inv_run env sched T s :
  time_inv T s → monotone T sched →
  time_inv (clock_after T sched) (run env sched s).
Proof.
  revert T s. induction sched as [|a rest IH]; intros T s Hs Hm; [done|].
  destruct Hm as [Ha Hrest]. cbn. apply IH; [|done].
  by apply time_inv_step.
Qed.

Lemma time_inv_init T : time_inv T init.
Proof.
  split; cbn; try done.
  - by intros j r ?%elem_of_nil.
  - by intros e r ?%elem_of_nil.
  - by intros e ?%elem_of_nil.
Qed.

(** X13. When the clock never goes back, every record written or stored
    was created no later than it was last updated, and a processing time,
    where there is one, is not negative. This holds on every schedule,
    also with repeated deliveries. *)
Theorem stamps_in_order env T sched j r :
  monotone T sched →
  (j, r) ∈ writes (run env sched init) ∨ jobs (run env sched init) !! j = Some r →
  createdAt r <= updatedAt r
  ∧ updatedAt r <= clock_after T sched
  ∧ ∀ ms, processingTimeMs r = Some ms → 0 <= ms.
Proof.
  intros Hm Hr.
  pose proof (time_inv_run env sched T init (time_inv_init T) Hm) as Hs.
  destruct Hr as [Hw|Hj].
  - by eapply time_writes.
  - by eapply time_jobs.
Qed.

Lemma stamps_in_order_witness :
  createdAt served_record <= updatedAt served_record
  ∧ updatedAt served_record <= clock_after 0 served_schedule
  ∧ ∀ ms, processingTimeMs served_record = Some ms → 0 <= ms.
Proof.
  apply (stamps_in_order mock_memory 0 served_schedule "job-1").
  - cbn. lia.
  - right. vm_compute. reflexivity.
Defined.

Lemma stamps_sorted_app newer j r older :
  stamps_sorted (newer ++ (j, r) :: older) →
  ∀ j' r', (j', r') ∈ older → updatedAt r' <= updatedAt r.
Proof.
  induction newer as [|[j0 r0] newer IH]; cbn.
  - by intros [H _].
  - intros [_ H]. by apply IH.
Qed.

(** X14. When the clock never goes back, the writes to the store carry
    [updatedAt] values that never go back either: a write is stamped no
    earlier than any write before it, of whatever job. *)
Theorem updatedAt_never_goes_back env T sched newer j r older j' r' :
  monotone T sched →
  writes (run env sched init) = newer ++ (j, r) :: older →
  (j', r') ∈ older →
  updatedAt r' <= updatedAt r.
Proof.
  intros Hm Hw Hin.
  pose proof (time_inv_run env sched T init (time_inv_init T) Hm) as Hs.
  apply time_sorted in Hs. rewrite Hw in Hs.
  by eapply stamps_sorted_app.
Qed.

Lemma updatedAt_never_goes_back_witness :
  updatedAt submitted_record <= updatedAt served_record.
Proof.
  apply (updatedAt_never_goes_back mock_memory 0 served_schedule
           (@nil (string * JobResult)) "job-1" served_record
           (tail (writes served_state)) "job-1" submitted_record).
  - cbn. lia.
  - vm_compute. reflexivity.
  - apply (list_elem_of_lookup_2 _ 3%nat). vm_compute. reflexivity.
Defined.

(** ** Splitting and trimming *)

Lemma split_first_spec sep s :
  let '(h, t) := split_first sep s in
  join sep (h :: t) = s
  ∧ count_char sep h = 0%nat
  ∧ Forall (λ x, count_char sep x = 0%nat) t
  ∧ length t = count_char sep s.
Proof.
  induction s as [|c s IH]; [done|]. cbn [split_first].
  destruct (split_first sep s) as [h t]. destruct IH as (Hj & Hh & Ht & Hl).
  cbn [count_char]. rewrite (Ascii.eqb_sym sep c).
  destruct (Ascii.eqb_spec c sep) as [->|Hne].
  - split_and!.
    + change (join sep (EmptyString :: h :: t))
        with (EmptyString +:+ String sep (join sep (h :: t))).
      rewrite append_nil. by rewrite Hj.
    + done.
    + by apply Forall_cons.
    + cbn. by rewrite Hl.
  - split_and!.
    + destruct t as [|x t]; [cbn [join] in *; by rewrite Hj|].
      change (join sep (String c h :: x :: t))
        with (String c h +:+ String sep (join sep (x :: t))).
      change (join sep (h :: x :: t))
        with (h +:+ String sep (join sep (x :: t))) in Hj.
      rewrite append_cons. by rewrite Hj.
    + cbn [count_char]. rewrite (Ascii.eqb_sym sep c).
      destruct (Ascii.eqb_spec c sep); [done|]. by rewrite Hh.
    + done.
    + by rewrite Hl.
Qed.

(** X15. A [CORS_ORIGINS] other than [*] becomes a list that is never
    empty: joining it with commas gives the value back, it has one more
    element than the value has commas, and no element holds a comma.
    Nothing is trimmed. *)
Theorem cors_origins_split val :
  val ≠ "*" →
  ∃ l, CORS_ORIGINS (Some val) = inr l
       ∧ join "," l = val
       ∧ length l = S (count_char "," val)
       ∧ Forall (λ o, count_char "," o = 0%nat) l.
Proof.
  intros Hne. unfold CORS_ORIGINS.
  change (default "*" (Some val)) with val. cbv zeta.
  destruct (String.eqb_spec val "*") as [->|_]; [done|].
  eexists. split; [done|]. unfold split.
  pose proof (split_first_spec "," val) as Hs.
  destruct (split_first "," val) as [h t].
  destruct Hs as (Hj & Hh & Ht & Hl).
  split_and!; [done|by cbn; rewrite Hl|by apply Forall_cons].
Qed.

Lemma cors_origins_split_witness :
  ∃ l, CORS_ORIGINS (Some "http://a.test, http://b.test") = inr l
       ∧ join "," l = "http://a.test, http://b.test"
       ∧ length l = S (count_char "," "http://a.test, http://b.test")
       ∧ Forall (λ o, count_char "," o = 0%nat) l.
Proof.
  apply (cors_origins_split "http://a.test, http://b.test"). discriminate.
Defined.

(** The second origin keeps the blank after the comma. *)
Example cors_origins_not_trimmed :
  CORS_ORIGINS (Some "http://a.test, http://b.test")
  = inr ["http://a.test"; " http://b.test"]
  ∧ CORS_ORIGINS None = inl "*"
  ∧ CORS_ORIGINS (Some EmptyString) = inr [EmptyString].
Proof. vm_compute. done. Qed.









(** An empty header is a key of its own, and [x-real-ip] is taken as it
    is. *)
Example keyGenerator_cases :
  keyGenerator (Some " 10.0.0.1 , 10.0.0.2") (Some "10.9.9.9") = "10.0.0.1"
  ∧ keyGenerator (Some EmptyString) (Some "10.9.9.9") = EmptyString
  ∧ keyGenerator None (Some " 10.9.9.9") = " 10.9.9.9"
  ∧ keyGenerator None None = "anonymous".
Proof. vm_compute. done. Qed.

(** ** Shutdown *)


(** While connections stay open, nothing but the server is closed. *)
Example shutdown_waits_for_connections env worker_ok queue_ok :
  gracefulShutdown env false worker_ok queue_ok = [ServerClose].
Proof. done. Qed.

(** ** The browser client *)

Lemma number_of_Z_value k :
  mantissa (number_of_Z k) = k ∧ exponent (number_of_Z k) = 0.
Proof. by destruct k. Qed.

(** An integer compares by its value. *)
Lemma integer_of_scaled x z :
  integer_of x = Some z →
  let e := Z.min (exponent x) 0 in
  e <= 0 ∧ mantissa x * 2 ^ (exponent x - e) = z * 2 ^ (0 - e).
Proof.
  destruct x as [s|s| |s m e]; cbn [integer_of mantissa exponent]; try done.
  - intros [= <-]. cbn. done.
  - destruct (0 <=? e) eqn:He.
    + apply Z.leb_le in He. intros [= <-].
      rewrite Z.min_r by done. rewrite Z.sub_0_r. split; [done|].
      cbn [Z.sub Z.opp Z.add Z.pow]. rewrite Z.mul_1_r.
      rewrite Z.shiftl_mul_pow2 by done. destruct s; cbn [cond_Zopp]; lia.
    + apply Z.leb_gt in He.
      destruct (_ =? 0) eqn:Hl; [|done]. intros [= <-].
      apply Z.eqb_eq in Hl. rewrite Z.land_ones in Hl by lia.
      rewrite Z.min_l by lia. split; [lia|].
      rewrite Z.sub_diag, Z.mul_1_r. replace (0 - e) with (- e) by lia.
      rewrite Z.shiftr_div_pow2 by lia.
      assert (Hp : 0 < 2 ^ (- e)) by (apply Z.pow_pos_nonneg; lia).
      pose proof (Z.div_mod (Z.pos m) (2 ^ (- e))).
      destruct s; cbn [cond_Zopp]; lia.
Qed.

Lemma less_than_by_value x y :
  isFinite x = true → isFinite y = true →
  less_than x y
  = (mantissa x * 2 ^ (exponent x - Z.min (exponent x) (exponent y))
     <? mantissa y * 2 ^ (exponent y - Z.min (exponent x) (exponent y))).
Proof. by destruct x, y. Qed.

Lemma integer_of_finite x z : integer_of x = Some z → isFinite x = true.
Proof. by destruct x. Qed.

Lemma number_of_Z_finite k : isFinite (number_of_Z k) = true.
Proof. by destruct k. Qed.

Lemma less_than_integer x z k :
  integer_of x = Some z →
  less_than x (number_of_Z k) = (z <? k)
  ∧ less_than (number_of_Z k) x = (k <? z).
Proof.
  intros Hx. destruct (integer_of_scaled x z Hx) as [He Hv].
  destruct (number_of_Z_value k) as [Hm Hk].
  pose proof (integer_of_finite x z Hx) as Hfx.
  pose proof (number_of_Z_finite k) as Hfk.
  assert (Hp : 0 < 2 ^ (0 - Z.min (exponent x) 0))
    by (apply Z.pow_pos_nonneg; lia).
  rewrite (less_than_by_value _ _ Hfx Hfk), (less_than_by_value _ _ Hfk Hfx).
  rewrite Hm, Hk, (Z.min_comm 0 (exponent x)), Hv.
  split.
  - destruct (z <? k) eqn:E; [apply Z.ltb_lt in E; apply Z.ltb_lt; nia|].
    apply Z.ltb_ge in E. apply Z.ltb_ge. nia.
  - destruct (k <? z) eqn:E; [apply Z.ltb_lt in E; apply Z.ltb_lt; nia|].
    apply Z.ltb_ge in E. apply Z.ltb_ge. nia.
Qed.

(** X18. On an integer, which is what [parseInt] gives when it does not
    give NaN, the two guards of the client decide alike, and they let
    through exactly what the schema of the server accepts; a submission
    that they let through is answered with the new job. *)
Theorem client_guards_match_schema x z :
  integer_of x = Some z →
  handleSubmit_refuses x = initiateDownload_throws x
  ∧ (initiateDownload_throws x = false ↔ validFileId x = Some z)
  ∧ (initiateDownload_throws x = false →
     ∀ env uuid now now' s,
       (downloadInitiate env [x] uuid now now' s).1
       = Initiated uuid queued 1).
Proof.
  intros Hx.
  destruct (less_than_integer x z 10000 Hx) as [Hlo _].
  destruct (less_than_integer x z 100000000 Hx) as [_ Hhi].
  assert (Hn : isNaN x = false) by by destruct x.
  assert (Hg : initiateDownload_throws x = false ↔ validFileId x = Some z).
  { unfold initiateDownload_throws, validFileId. rewrite Hlo, Hhi, Hx.
    destruct (z <? 10000) eqn:E1, (100000000 <? z) eqn:E2;
      destruct (10000 <=? z) eqn:E3, (z <=? 100000000) eqn:E4; cbn;
      try (split; (done || congruence)); lia. }
  split; [unfold handleSubmit_refuses, initiateDownload_throws; by rewrite Hn|].
  split; [done|].
  intros Hpass env uuid now now' s. apply Hg in Hpass.
  unfold downloadInitiate.
  by rewrite (schema_single x z Hx (validFileId_bounds x z Hpass)).
Qed.

Lemma client_guards_match_schema_witness :
  handleSubmit_refuses (number_of_Z 70000)
  = initiateDownload_throws (number_of_Z 70000)
  ∧ (initiateDownload_throws (number_of_Z 70000) = false
     ↔ validFileId (number_of_Z 70000) = Some 70000)
  ∧ (initiateDownload_throws (number_of_Z 70000) = false →
     ∀ env uuid now now' s,
       (downloadInitiate env [number_of_Z 70000] uuid now now' s).1
       = Initiated uuid queued 1).
Proof.
  apply (client_guards_match_schema (number_of_Z 70000) 70000). reflexivity.
Defined.

(** Off the integers the guard of [initiateDownload] lets through what
    the server refuses: a fraction within the bounds, and NaN, which only
    the form's guard stops. *)
Example client_guard_weaker_off_integers :
  initiateDownload_throws (and_a_half 10000) = false
  ∧ validFileId (and_a_half 10000) = None
  ∧ initiateDownload_throws S754_nan = false
  ∧ handleSubmit_refuses S754_nan = true.
Proof. vm_compute. done. Qed.

Lemma matches_jobId job job' u :
  dj_jobId job = dj_jobId job' → matches job u = matches job' u.
Proof. intros H. unfold matches. by rewrite H. Qed.

Lemma find_matches_jobId job job' updates :
  dj_jobId job = dj_jobId job' →
  List.find (matches job) updates = List.find (matches job') updates.
Proof.
  intros H. induction updates as [|u updates IH]; [done|]. cbn.
  by rewrite (matches_jobId job job' u H), IH.
Qed.

Lemma find_no_match job updates :
  (∀ u, Some u ∈ updates →
        polledJobId u ≠ dj_jobId job ∧ u_jobId u ≠ dj_jobId job) →
  List.find (matches job) updates = None.
Proof.
  induction updates as [|u updates IH]; [done|]. intros Hno. cbn.
  rewrite IH by (intros u' Hu'; apply Hno; by right).
  destruct u as [u|]; [|done]. cbn.
  destruct (Hno u) as [H1 H2]; [by left|].
  by rewrite !bool_decide_eq_false_2.
Qed.

(** X19. Applying the answers of a poll keeps the list of jobs as it is
    but for the polled fields: as many jobs, in the same order, each with
    its identifier, file, creation time and error; a job that no answer
    names is left as it was; and applying the same answers once more
    changes nothing. *)
Theorem applyUpdates_keeps_identity updates prev :
  let identity job :=
    (dj_jobId job, dj_fileId job, dj_createdAt job, dj_error job) in
  map identity (applyUpdates updates prev) = map identity prev
  ∧ (∀ i job, prev !! i = Some job →
       (∀ u, Some u ∈ updates →
             polledJobId u ≠ dj_jobId job ∧ u_jobId u ≠ dj_jobId job) →
       applyUpdates updates prev !! i = Some job)
  ∧ applyUpdates updates (applyUpdates updates prev)
    = applyUpdates updates prev.
Proof.
  cbv zeta. unfold applyUpdates. split_and!.
  - rewrite map_map. apply map_ext. intros job.
    by destruct (List.find (matches job) updates) as [[u|]|].
  - intros i job Hi Hno. rewrite list_lookup_fmap, Hi. cbn.
    by rewrite find_no_match.
  - rewrite map_map. apply map_ext. intros job.
    destruct (List.find (matches job) updates) as [[u|]|] eqn:Hf.
    + rewrite (find_matches_jobId (applyUpdate job u) job) by done.
      by rewrite Hf.
    + by rewrite Hf.
    + by rewrite Hf.
Qed.

Lemma fetchJobStatus_stored s j :
  fetchJobStatus s j = (λ r, mkUpdate j j r) <$> getJobStatus j s.
Proof.
  unfold fetchJobStatus, jobStatus. by destruct (getJobStatus j s).
Qed.

Lemma find_fetched s job ids :
  List.find (matches job) (map (fetchJobStatus s) ids)
  = match (if bool_decide (dj_jobId job ∈ ids)
           then getJobStatus (dj_jobId job) s else None) with
    | Some r => Some (Some (mkUpdate (dj_jobId job) (dj_jobId job) r))
    | None => None
    end.
Proof.
  induction ids as [|j ids IH]; [done|]. cbn [map List.find].
  rewrite fetchJobStatus_stored.
  destruct (decide (j = dj_jobId job)) as [->|Hne].
  - rewrite (bool_decide_eq_true_2 (_ ∈ _ :: _)) by by left.
    destruct (getJobStatus (dj_jobId job) s) as [r|] eqn:Hr; cbn.
    + by rewrite bool_decide_eq_true_2.
    + rewrite IH. by destruct (bool_decide _).
  - assert (Hb : bool_decide (dj_jobId job ∈ j :: ids)
                 = bool_decide (dj_jobId job ∈ ids)).
    { apply bool_decide_ext. rewrite elem_of_cons.
      split; [intros [Heq|Hin]; [congruence|done]|by right]. }
    rewrite Hb, <- IH.
    destruct (getJobStatus j s) as [r|]; cbn; [|done].
    by rewrite !bool_decide_eq_false_2.
Qed.

Lemma active_polled jobs i job :
  jobs !! i = Some job → is_active job = true →
  dj_jobId job ∈ activeJobIds jobs.
Proof.
  intros Hi Ha. unfold activeJobIds. apply list_elem_of_fmap.
  exists job. split; [done|].
  apply list_elem_of_filter. split; [done|]. by eapply list_elem_of_lookup_2.
Qed.

(** X20. After a poll, a job that was queued or processing shows what
    the server stores for it: status, progress, URL, message and update
    time, with its identifier and file as they were. A job that the
    server does not know, one that expired for instance, is left as it
    was and so stays active; a job whose identifier was not polled is
    left as it was. *)
Theorem poll_reflects_store s jobs i job :
  jobs !! i = Some job →
  (∀ r, is_active job = true → getJobStatus (dj_jobId job) s = Some r →
        poll s jobs !! i
        = Some (mkDownloadJob (dj_jobId job) (dj_fileId job) (status r)
                  (Some (progress r)) (downloadUrl r) (dj_error job)
                  (Some (message r)) (dj_createdAt job)
                  (Some (updatedAt r))))
  ∧ (getJobStatus (dj_jobId job) s = None → poll s jobs !! i = Some job)
  ∧ (dj_jobId job ∉ activeJobIds jobs → poll s jobs !! i = Some job).
Proof.
  intros Hi. unfold poll, applyUpdates.
  rewrite list_lookup_fmap, Hi. cbn [fmap option_fmap option_map].
  rewrite find_fetched. split_and!.
  - intros r Ha Hr.
    rewrite bool_decide_eq_true_2 by by eapply active_polled.
    by rewrite Hr.
  - intros Hr. rewrite Hr. by destruct (bool_decide _).
  - intros Hni. by rewrite bool_decide_eq_false_2.
Qed.

Lemma poll_reflects_store_witness :
  (∀ r, is_active (mkDownloadJob "job-1" 70000 queued None None None None
                     1002 None) = true →
        getJobStatus "job-1" served_state = Some r →
        poll served_state two_jobs !! 1%nat
        = Some (mkDownloadJob "job-1" 70000 (status r) (Some (progress r))
                  (downloadUrl r) None (Some (message r)) 1002
                  (Some (updatedAt r))))
  ∧ (getJobStatus "job-1" served_state = None →
     poll served_state two_jobs !! 1%nat
     = Some (mkDownloadJob "job-1" 70000 queued None None None None 1002
               None))
  ∧ ("job-1" ∉ activeJobIds two_jobs →
     poll served_state two_jobs !! 1%nat
     = Some (mkDownloadJob "job-1" 70000 queued None None None None 1002
               None)).
Proof.
  apply (poll_reflects_store served_state two_jobs 1
           (mkDownloadJob "job-1" 70000 queued None None None None 1002
              None)).
  reflexivity.
Defined.

(** The browser's two jobs after a poll of the served state: the first
    job is shown completed, the second, which the server never saw, is
    still queued. *)
Example poll_two_jobs :
  map (λ j, (dj_jobId j, dj_status j, dj_progress j))
      (poll served_state two_jobs)
  = [("job-2", queued, None); ("job-1", completed, Some 100)].
Proof. vm_compute. done. Qed.

Lemma addError_take {A} (entry : A) l :
  addError entry (take 50 l) = take 50 (entry :: l).
Proof.
  unfold addError. change (take 50 (entry :: take 50 l))
    with (entry :: take 49 (take 50 l)).
  rewrite take_take. by replace (49 `min` 50)%nat with 49%nat by lia.
Qed.

Lemma addError_all {A} (entries l : list A) :
  foldl (λ log entry, addError entry log) (take 50 l) entries
  = take 50 (rev entries ++ l).
Proof.
  revert l. induction entries as [|e entries IH]; intros l; [done|].
  cbn [foldl rev]. rewrite addError_take, IH.
  by rewrite <- app_assoc.
Qed.

(** X21. The error log holds the 50 newest entries, the newest first:
    after any number of [addError] calls on an empty log it is the first
    50 of the entries in reverse order of their arrival, and so never
    longer than 50. *)
Theorem error_log_keeps_newest {A} (entries : list A) :
  let log := foldl (λ log entry, addError entry log) [] entries in
  log = take 50 (rev entries)
  ∧ length log = (length entries `min` 50)%nat.
Proof.
  cbv zeta. pose proof (addError_all entries []) as H.
  rewrite app_nil_r in H. change (take 50 (@nil A)) with (@nil A) in H.
  rewrite H. split; [done|].
  rewrite length_take, length_rev. lia.
Qed.

(** ** What the store never loses *)

Lemma record_stays_step env a s j :
  is_Some (jobs s !! j) →
  a ≠ Expire j ∨ REDIS_URL env = false →
  is_Some (jobs (step env a s) !! j).
Proof.
  intros Hj Ha. step_cases env a s Ht; cbn; try done;
    try (by apply lookup_insert_is_Some'; right);
    try (apply lookup_insert_is_Some'; right;
         by apply lookup_insert_is_Some'; right).
  destruct Ha as [Ha|Ha]; [|congruence].
  rewrite lookup_delete_ne; [done|]. congruence.
Qed.

(** X22. A record leaves the store only by expiry, and expiry exists only
    with Redis: on a schedule that does not expire the job, or without
    Redis on any schedule, a job that has a record keeps having one. The
    map in memory never shrinks. *)
Theorem record_stays_until_expiry env sched s j :
  is_Some (jobs s !! j) →
  Expire j ∉ sched ∨ REDIS_URL env = false →
  is_Some (jobs (run env sched s) !! j).
Proof.
  revert s. induction sched as [|a sched IH]; intros s Hj Hs; [done|].
  cbn. apply IH.
  - apply record_stays_step; [done|].
    destruct Hs as [Hs|Hs]; [left|by right].
    intros ->. apply Hs. by left.
  - destruct Hs as [Hs|Hs]; [left|by right].
    intros Hin. apply Hs. by right.
Qed.

Lemma record_stays_until_expiry_witness :
  is_Some (jobs (run mock_memory [Poll "job-1"; Expire "job-1"] served_state)
             !! "job-1").
Proof.
  apply (record_stays_until_expiry mock_memory
           [Poll "job-1"; Expire "job-1"] served_state "job-1").
  - vm_compute. eexists. reflexivity.
  - right. reflexivity.
Defined.

(* ================================================================== *)
(** * Ticks against terminal records *)
(* ================================================================== *)

(** ** A read from the callback to its resumption *)






(** ** Terminal records when every item is delivered once *)









(* ================================================================== *)
(** * The progress of a job that is delivered once *)
(* ================================================================== *)

(** ** The counter *)







(** ** The writes of one job, one after the other *)

Lemma history_write j r s s' :
  writes s' = (j, r) :: writes s → history j s' = history j s ++ [r].
Proof.
  intros Hw. unfold history. rewrite Hw. cbn [omap list_omap fst snd].
  rewrite decide_True by done. by rewrite reverse_cons.
Qed.

Lemma history_other j j' r s s' :
  writes s' = (j', r) :: writes s → j' ≠ j → history j s' = history j s.
Proof.
  intros Hw Hne. unfold history. rewrite Hw. cbn [omap list_omap fst snd].
  by rewrite decide_False by done.
Qed.


Lemma history_fresh j s : fresh j s → history j s = [].
Proof.
  unfold fresh, history. intros Hni.
  assert (Ho : omap (λ w : string * JobResult,
                       if decide (w.1 = j) then Some w.2 else None)
                    (writes s) = []); [|by rewrite Ho].
  induction (writes s) as [|[j' r] tr IH]; [done|].
  cbn [omap list_omap fst snd]. cbn [fmap list_fmap fst] in Hni.
  apply not_elem_of_cons in Hni as [Hne Hni].
  rewrite decide_False by done. by apply IH.
Qed.












(** The progress values written when two ticks overlap. *)
Example progress_of_overlapping_ticks :
  map progress (history "job-1" overlapping_ticks_state) = [0; 0; 20; 20].
Proof. vm_compute. reflexivity. Qed.

(* ================================================================== *)
(** * A record whose item was never enqueued *)
(* ================================================================== *)

Lemma unserved_start j j' f now s :
  unserved j s → j' ≠ j →
  unserved j (processDownloadJob_start j' f now s)
  ∧ history j (processDownloadJob_start j' f now s) = history j s
  ∧ jobs (processDownloadJob_start j' f now s) !! j = jobs s !! j.
Proof.
  intros [Hq He] Hne. split_and!.
  - split; [done|]. cbn.
    intros e [Hin|Hx%list_elem_of_singleton]%elem_of_app; [eauto|].
    by subst e.
  - by eapply history_other.
  - cbn. by rewrite lookup_insert_ne.
Qed.

Lemma unserved_set_exec j i e e' s :
  unserved j s → execs s !! i = Some e → e_jobId e' = e_jobId e →
  unserved j (set_exec i e' s) ∧ e_jobId e ≠ j.
Proof.
  intros [Hq He] Hi Hj.
  assert (Hne : e_jobId e ≠ j) by by eapply He, list_elem_of_lookup_2.
  split; [|done]. split; [done|]. cbn.
  intros e1 [->|Hin]%elem_of_insert_inv; [congruence|eauto].
Qed.

(** A step leaves a job that is known and unserved as it is, but for the
    expiry of its record. *)
Lemma unserved_step env redelivery a j s :
  admissible redelivery a s → history j s ≠ [] → unserved j s →
  unserved j (step env a s)
  ∧ history j (step env a s) = history j s
  ∧ (jobs (step env a s) !! j = jobs s !! j
     ∨ a = Expire j ∧ jobs (step env a s) !! j = None).
Proof.
  intros Ha Hh Hu. pose proof Hu as [Hq He].
  step_cases env a s Ht; cbn [admissible] in Ha.
  - auto.
  - assert (Hne : uuid ≠ j) by (intros ->; by apply Hh, history_fresh).
    split_and!.
    + split; [|done]. cbn. rewrite fmap_app, elem_of_app.
      intros [Hin|Hin%list_elem_of_singleton]; [done|]. by cbn in Hin.
    + by eapply history_other.
    + left. cbn. by rewrite lookup_insert_ne.
  - assert (Hne : uuid ≠ j) by (intros ->; by apply Hh, history_fresh).
    set (s0 := setJobStatus uuid (initialRecord f now) s).
    assert (Hu0 : unserved j s0) by done.
    destruct (unserved_start j uuid f now' s0 Hu0 Hne) as (H1 & H2 & H3).
    split; [done|]. split.
    + rewrite H2. by eapply history_other.
    + left. rewrite H3. cbn. by rewrite lookup_insert_ne.
  - assert (Hne : j0 ≠ j).
    { intros ->. apply Hq. rewrite H0. cbn. by left. }
    set (s0 := mkSys (jobs s) q (execs s) (writes s)).
    assert (Hu0 : unserved j s0).
    { split; [|done]. cbn. intros Hin. apply Hq. rewrite H0. cbn.
      by right. }
    destruct (unserved_start j j0 f now s0 Hu0 Hne) as (H1 & H2 & H3).
    split; [done|]. split; [done|]. by left.
  - assert (Hne : e_jobId e ≠ j) by by eapply He, list_elem_of_lookup_2.
    destruct (unserved_start j (e_jobId e) (e_fileId e) now s Hu Hne)
      as (H1 & H2 & H3).
    split; [done|]. split; [done|]. by left.
  - destruct (unserved_set_exec j i e
                (mkExec (e_jobId e) (e_fileId e) (e_startTime e)
                   (Z.min (e_progress e + 10) 90) Sleeping
                   (e_inflight e ++ [getJobStatus (e_jobId e) s])) s)
      as [H1 _]; try done. split; [done|]. split; [done|]. by left.
  - destruct (unserved_set_exec j i e
                (mkExec (e_jobId e) (e_fileId e) (e_startTime e)
                   (e_progress e) (e_phase e) rest) s)
      as [H2 _]; try done. split; [done|]. split; [done|]. by left.
  - destruct (unserved_set_exec j i e
                (mkExec (e_jobId e) (e_fileId e) (e_startTime e)
                   (e_progress e) (e_phase e) rest) s)
      as [H2 Hne]; try done. split; [done|]. split.
    + by eapply history_other.
    + left. cbn. by rewrite lookup_insert_ne.
  - destruct (unserved_set_exec j i e
                (mkExec (e_jobId e) (e_fileId e) (e_startTime e)
                   (e_progress e) Woken (e_inflight e)) s)
      as [H1 _]; try done. split; [done|]. split; [done|]. by left.
  - destruct (unserved_set_exec j i e
                (mkExec (e_jobId e) (e_fileId e) (e_startTime e)
                   (e_progress e) Finished []) s)
      as [H2 Hne]; try done. split; [done|]. split.
    + by eapply history_other.
    + left. cbn. by rewrite lookup_insert_ne.
  - split; [done|]. split; [done|]. cbn.
    destruct (decide (j0 = j)) as [->|Hne].
    + right. split; [done|]. apply lookup_delete_eq.
    + left. by rewrite lookup_delete_ne.
Qed.

Lemma unserved_run env redelivery sched j r s :
  admissible_all env redelivery sched s →
  history j s = [r] → unserved j s →
  jobs s !! j = Some r ∨ jobs s !! j = None →
  unserved j (run env sched s)
  ∧ history j (run env sched s) = [r]
  ∧ (jobs (run env sched s) !! j = Some r
     ∨ jobs (run env sched s) !! j = None)
  ∧ (jobs s !! j = Some r → Expire j ∉ sched →
     jobs (run env sched s) !! j = Some r).
Proof.
  revert s. induction sched as [|a sched IH]; intros s Hall Hh Hu Hj.
  - cbn. auto.
  - destruct Hall as [Ha Hall]. cbn [run foldl].
    fold (run env sched (step env a s)).
    destruct (unserved_step env redelivery a j s Ha) as (Hu1 & Hh1 & Hj1);
      [by rewrite Hh|done|].
    rewrite Hh in Hh1.
    assert (Hj1' : jobs (step env a s) !! j = Some r
                   ∨ jobs (step env a s) !! j = None).
    { destruct Hj1 as [->|[_ ->]]; [done|by right]. }
    destruct (IH (step env a s) Hall Hh1 Hu1 Hj1') as (Hu2 & Hh2 & Hj2 & Hk).
    split; [done|]. split; [done|]. split; [done|].
    intros Hs Hni. apply Hk.
    + destruct Hj1 as [->|[-> _]]; [done|].
      exfalso. apply Hni. by left.
    + intros Hin. apply Hni. by right.
Qed.

(** X23. With Redis, when the enqueueing of a submission fails after its
    record was written, the record is never picked up: on every schedule
    that follows, with or without redelivery, the job has the one write
    of its submission and no other, no item in the queue and no
    execution; its record is the queued one of the submission until it
    expires, and it is still there on a schedule that does not expire
    it. *)
Theorem orphan_stays_queued env redelivery node_env s fileId uuid rid now msg
    sched :
  REDIS_URL env = true →
  reachable env redelivery s → fresh uuid s →
  let s1 := (downloadInitiateHandler_add_rejects node_env fileId uuid rid
               now msg s).2 in
  admissible_all env redelivery sched s1 →
  let s' := run env sched s1 in
  history uuid s' = [initialRecord fileId now]
  ∧ unserved uuid s'
  ∧ (jobs s' !! uuid = Some (initialRecord fileId now)
     ∨ jobs s' !! uuid = None)
  ∧ (Expire uuid ∉ sched →
     jobs s' !! uuid = Some (initialRecord fileId now)).
Proof.
  intros _ Hs Hf s1 Hall s'. subst s' s1. cbn [snd] in *.
  set (s1 := setJobStatus uuid (initialRecord fileId now) s) in *.
  pose proof (file_inv_reachable env redelivery s Hs) as Hfile.
  assert (Hh : history uuid s1 = [initialRecord fileId now]).
  { rewrite (history_write uuid (initialRecord fileId now) s s1) by done.
    by rewrite history_fresh. }
  assert (Hu : unserved uuid s1).
  { split; cbn.
    - intros [[j f] [Heq Hin]]%list_elem_of_fmap. cbn in Heq. subst j.
      apply Hf. by eapply file_queue_known.
    - intros e He Heq. apply Hf. rewrite <- Heq. by eapply file_exec_known. }
  assert (Hj : jobs s1 !! uuid = Some (initialRecord fileId now))
    by apply lookup_insert_eq.
  destruct (unserved_run env redelivery sched uuid _ s1 Hall Hh Hu
              (or_introl Hj)) as (H1 & H2 & H3 & H4).
  split; [done|]. split; [done|]. split; [done|]. by apply H4.
Qed.

Lemma fresh_in_redelivered_state : fresh "job-2" redelivered_state.
Proof. unfold fresh. apply (bool_decide_unpack _). by vm_compute. Qed.

Lemma orphan_stays_queued_witness :
  let s' := run mock_redis
              [Deliver 9200; Redeliver 0 9300; Poll "job-2"; Expire "job-1"]
              orphaned_state in
  history "job-2" s' = [initialRecord 70007 9100]
  ∧ unserved "job-2" s'
  ∧ (jobs s' !! "job-2" = Some (initialRecord 70007 9100)
     ∨ jobs s' !! "job-2" = None)
  ∧ (Expire "job-2" ∉ [Deliver 9200; Redeliver 0 9300; Poll "job-2";
                       Expire "job-1"] →
     jobs s' !! "job-2" = Some (initialRecord 70007 9100)).
Proof.
  apply (orphan_stays_queued mock_redis true production redelivered_state
           70007 "job-2" "req-1" 9100 "Connection is closed."
           [Deliver 9200; Redeliver 0 9300; Poll "job-2"; Expire "job-1"]).
  - reflexivity.
  - exact redelivered_state_reachable.
  - exact fresh_in_redelivered_state.
  - cbn. done.
Defined.
